(** * Jira-Commit-Message: the message transformation core

    A shallow embedding of [src/extension.ts]: the configuration resolver
    [getExtensionConfig], the stripping helper [extractCurrentMessage], the
    message computation [getCommitMessage], the synchronization pass
    [updateCommitMessage] and the watcher methods built on them.

    The extension relies on the host's [String] and [RegExp] objects.  They
    are modelled first: strings are [string]s of 8-bit code units, and
    regular expressions are a backtracking matcher that follows the
    ECMAScript pattern semantics (priority of alternatives, greedy and lazy
    repetition, capture reset at each iteration, rejection of empty
    iterations) for the fragment described at [regex]. *)

From Stdlib Require Import Bool Arith Lia List Ascii String.
Import ListNotations.
Open Scope string_scope.
Open Scope nat_scope.

(** ** Strings *)

Module Str.

Fixpoint drop (n : nat) (s : string) : string :=
  match n, s with
  | S n', String _ s' => drop n' s'
  | _, _ => s
  end.

Fixpoint take (n : nat) (s : string) : string :=
  match n, s with
  | S n', String a s' => String a (take n' s')
  | _, _ => ""
  end.

(** The part of [s] consumed when the remaining input is [s'] (a suffix of
    [s]). *)
Definition consumed (s s' : string) : string :=
  take (length s - length s') s.

Fixpoint forallb (p : ascii -> bool) (s : string) : bool :=
  match s with
  | "" => true
  | String a s' => p a && forallb p s'
  end.

Definition code (a : ascii) : nat := nat_of_ascii a.

Definition in_range (lo hi a : ascii) : bool :=
  (code lo <=? code a) && (code a <=? code hi).

Definition is_digit (a : ascii) : bool := in_range "0" "9" a.

Definition digit_value (a : ascii) : nat := code a - code "0".

Definition is_word (a : ascii) : bool :=
  in_range "a" "z" a || in_range "A" "Z" a || is_digit a || Ascii.eqb a "_".

(** WhiteSpace and LineTerminator code units below 256: TAB, LF, VT, FF, CR,
    SP and NBSP. *)
Definition is_space (a : ascii) : bool :=
  let n := code a in
  ((9 <=? n) && (n <=? 13)) || (n =? 32) || (n =? 160).

Definition is_line_terminator (a : ascii) : bool :=
  let n := code a in (n =? 10) || (n =? 13).

Fixpoint takeWhile (p : ascii -> bool) (s : string) : string :=
  match s with
  | String a s' => if p a then String a (takeWhile p s') else ""
  | "" => ""
  end.

Fixpoint dropWhile (p : ascii -> bool) (s : string) : string :=
  match s with
  | String a s' => if p a then dropWhile p s' else s
  | "" => ""
  end.

(** [String.prototype.trim] *)
Fixpoint trimStart (s : string) : string :=
  match s with
  | String a s' => if is_space a then trimStart s' else s
  | "" => ""
  end.

Fixpoint trimEnd (s : string) : string :=
  match s with
  | String a s' =>
      match trimEnd s' with
      | "" => if is_space a then "" else String a ""
      | t => String a t
      end
  | "" => ""
  end.

Definition trim (s : string) : string := trimEnd (trimStart s).

(** [String.prototype.startsWith] and the first occurrence of a search
    string, returned as the text before it and the text after it. *)
Fixpoint startsWith (p s : string) : bool :=
  match p, s with
  | "", _ => true
  | String a p', String b s' => Ascii.eqb a b && startsWith p' s'
  | String _ _, "" => false
  end.

Fixpoint splitFirst (p s : string) : option (string * string) :=
  if startsWith p s then Some ("", drop (length p) s)
  else match s with
       | "" => None
       | String a s' =>
           match splitFirst p s' with
           | Some (b, r) => Some (String a b, r)
           | None => None
           end
       end.

End Str.

(** ** Regular expressions *)

(** The fragment of ECMAScript patterns (no flags) that is modelled:
    characters, [.], classes with ranges and the escapes [\d \D \s \S \w \W],
    sequence, alternation, capturing and non-capturing groups, the
    quantifiers [*], [+] and [?] in their greedy and lazy forms, and the
    anchors [^] and [$].  Groups carry their number. *)

Inductive class_item : Type :=
| CChar (a : ascii)
| CRange (lo hi : ascii)
| CDigit (positive : bool)
| CSpace (positive : bool)
| CWord (positive : bool).

Inductive regex : Type :=
| REmpty
| RChar (a : ascii)
| RAny
| RSet (negated : bool) (items : list class_item)
| RSeq (r1 r2 : regex)
| RAlt (r1 r2 : regex)
| RStar (greedy : bool) (r : regex)
| RPlus (greedy : bool) (r : regex)
| ROpt (greedy : bool) (r : regex)
| RGroup (i : nat) (r : regex)
| RBol
| REol.

Definition item_matches (it : class_item) (a : ascii) : bool :=
  match it with
  | CChar b => Ascii.eqb a b
  | CRange lo hi => Str.in_range lo hi a
  | CDigit pos => Bool.eqb pos (Str.is_digit a)
  | CSpace pos => Bool.eqb pos (Str.is_space a)
  | CWord pos => Bool.eqb pos (Str.is_word a)
  end.

Definition set_matches (negated : bool) (items : list class_item) (a : ascii)
  : bool :=
  xorb negated (existsb (fun it => item_matches it a) items).

Fixpoint groups_in (r : regex) : list nat :=
  match r with
  | RSeq r1 r2 | RAlt r1 r2 => groups_in r1 ++ groups_in r2
  | RStar _ r1 | RPlus _ r1 | ROpt _ r1 => groups_in r1
  | RGroup i r1 => i :: groups_in r1
  | _ => []
  end.

(** Number of capture slots of a pattern: the largest group number. *)
Definition ngroups (r : regex) : nat := fold_right Nat.max 0 (groups_in r).

(** *** Captures *)

Definition captures : Type := nat -> option string.

Definition no_captures : captures := fun _ => None.

Definition set_capture (i : nat) (v : string) (c : captures) : captures :=
  fun j => if j =? i then Some v else c j.

Definition clear_captures (l : list nat) (c : captures) : captures :=
  fun j => if existsb (Nat.eqb j) l then None else c j.

(** *** The matcher

    [rmatch n r s c k]: match [r] at the head of the remaining input [s]
    with captures [c], then continue with [k]; [n] is the length of the
    whole input, so that the position of [s] is [n - length s].  [None] is
    the specification's [failure]. *)

Section Matcher.

Variable n : nat.
Variable A : Type.

Definition cont : Type := string -> captures -> option A.
Definition matcher : Type := string -> captures -> cont -> option A.

Definition matchChar (p : ascii -> bool) : matcher :=
  fun s c k =>
    match s with
    | String a s' => if p a then k s' c else None
    | "" => None
    end.

(** RepeatMatcher with min = 0 and max = infinity.  An iteration that
    consumes nothing fails, so every iteration shortens the input and
    [fuel = S (length s)] is never exhausted. *)
Fixpoint repeatStar (m : matcher) (gs : list nat) (greedy : bool)
         (fuel : nat) (s : string) (c : captures) (k : cont) : option A :=
  match fuel with
  | O => None
  | S fuel' =>
      let d : cont := fun s' c' =>
        if length s' =? length s then None
        else repeatStar m gs greedy fuel' s' c' k in
      if greedy then
        match m s (clear_captures gs c) d with
        | Some z => Some z
        | None => k s c
        end
      else
        match k s c with
        | Some z => Some z
        | None => m s (clear_captures gs c) d
        end
  end.

(** RepeatMatcher with min = 0 and max = 1. *)
Definition repeatOpt (m : matcher) (gs : list nat) (greedy : bool)
  : matcher :=
  fun s c k =>
    let d : cont := fun s' c' =>
      if length s' =? length s then None else k s' c' in
    if greedy then
      match m s (clear_captures gs c) d with
      | Some z => Some z
      | None => k s c
      end
    else
      match k s c with
      | Some z => Some z
      | None => m s (clear_captures gs c) d
      end.

Fixpoint rmatch (r : regex) : matcher :=
  match r with
  | REmpty => fun s c k => k s c
  | RChar a => matchChar (Ascii.eqb a)
  | RAny => matchChar (fun a => negb (Str.is_line_terminator a))
  | RSet neg items => matchChar (set_matches neg items)
  | RSeq r1 r2 => fun s c k =>
      rmatch r1 s c (fun s' c' => rmatch r2 s' c' k)
  | RAlt r1 r2 => fun s c k =>
      match rmatch r1 s c k with
      | Some z => Some z
      | None => rmatch r2 s c k
      end
  | RStar g r1 => fun s c k =>
      repeatStar (rmatch r1) (groups_in r1) g (S (length s)) s c k
  | RPlus g r1 => fun s c k =>
      rmatch r1 s (clear_captures (groups_in r1) c)
        (fun s' c' =>
           repeatStar (rmatch r1) (groups_in r1) g (S (length s')) s' c' k)
  | ROpt g r1 => repeatOpt (rmatch r1) (groups_in r1) g
  | RGroup i r1 => fun s c k =>
      rmatch r1 s c (fun s' c' => k s' (set_capture i (Str.consumed s s') c'))
  | RBol => fun s c k => if length s =? n then k s c else None
  | REol => fun s c k => match s with "" => k s c | _ => None end
  end.

End Matcher.

Arguments matchChar {A} p s c k.
Arguments repeatStar {A} m gs greedy fuel s c k.
Arguments repeatOpt {A} m gs greedy s c k.
Arguments rmatch n {A} r s c k.

(** *** RegExpBuiltinExec *)

(** A match: the index where it starts, the matched text, the text after it
    and the capture groups 1, 2, ... ([None] is [undefined]). *)
Record MatchResult : Type := mkMatch {
  m_index : nat;
  m_matched : string;
  m_after : string;
  m_groups : list (option string)
}.

Definition matchAt (r : regex) (n idx : nat) (s : string)
  : option MatchResult :=
  rmatch n r s no_captures
    (fun s' c' =>
       Some (mkMatch idx (Str.consumed s s') s'
               (map c' (seq 1 (ngroups r))))).

(** Try each start index from that of [s] on; [n] is the length of the whole
    input and [idx] the index of [s] in it. *)
Fixpoint execFrom (r : regex) (n idx : nat) (s : string)
  : option MatchResult :=
  match matchAt r n idx s with
  | Some m => Some m
  | None =>
      match s with
      | "" => None
      | String _ s' => execFrom r n (S idx) s'
      end
  end.

Definition exec (r : regex) (s : string) : option MatchResult :=
  execFrom r (length s) 0 s.

(** ** Exceptions *)

(** What a call can throw: the [SyntaxError] of [new RegExp], and
    [NotModelled] for a pattern outside the modelled fragment. *)
Inductive js_error : Type :=
| SyntaxError (msg : string)
| NotModelled (what : string).

Inductive Result (A : Type) : Type :=
| Ok (a : A)
| Throw (e : js_error).

Arguments Ok {A} a.
Arguments Throw {A} e.

Definition bind {A B : Type} (x : Result A) (f : A -> Result B) : Result B :=
  match x with
  | Ok a => f a
  | Throw e => Throw e
  end.

Notation "x <- e1 ;; e2" := (bind e1 (fun x => e2))
  (at level 61, e1 at next level, right associativity).

Definition error_message (e : js_error) : string :=
  match e with
  | SyntaxError msg => msg
  | NotModelled what => what
  end.

(** ** [new RegExp(source)]: the pattern parser *)

(** The parser reads the source left to right and keeps the open groups on a
    stack.  It follows the grammar of patterns without the [u] flag,
    including the identity escapes and the literal [\]] and [}] of Annex B.
    Braces, back references, look-around, named groups, word boundaries and
    the numeric escapes are outside the fragment. *)

Module Parser.

Inductive term_kind : Type := KAtom | KQuantified | KLazy | KAssertion.

Definition term : Type := (term_kind * regex)%type.

Record frame : Type := mkFrame {
  f_alts : list regex;   (* finished alternatives, most recent first *)
  f_terms : list term    (* terms of the current one, most recent first *)
}.

Inductive class_pend : Type := PNone | PAtom | PDash.

Inductive pmode : Type :=
| MNormal
| MEscape
| MGroupOpen
| MGroupSpec
| MClassOpen
| MClass (neg : bool) (items : list class_item) (pend : class_pend)
| MClassEscape (neg : bool) (items : list class_item) (pend : class_pend).

Record pstate : Type := mkState {
  p_mode : pmode;
  p_cur : frame;
  p_stack : list (frame * option nat);
  p_next : nat
}.

Definition initial : pstate := mkState MNormal (mkFrame [] []) [] 1.

Definition seq_of_terms (ts : list term) : regex :=
  fold_left (fun acc t => RSeq (snd t) acc) ts REmpty.

Definition frame_regex (f : frame) : regex :=
  fold_left (fun acc a => RAlt a acc) (f_alts f) (seq_of_terms (f_terms f)).

Definition set_mode (m : pmode) (st : pstate) : pstate :=
  mkState m (p_cur st) (p_stack st) (p_next st).

Definition push_term (t : term) (st : pstate) : pstate :=
  mkState MNormal
    (mkFrame (f_alts (p_cur st)) (t :: f_terms (p_cur st)))
    (p_stack st) (p_next st).

Definition set_terms (ts : list term) (st : pstate) : pstate :=
  mkState MNormal (mkFrame (f_alts (p_cur st)) ts) (p_stack st) (p_next st).

Definition nothing_to_repeat {A : Type} : Result A :=
  Throw (SyntaxError "Nothing to repeat").

Definition quantify (mk : bool -> regex -> regex) (st : pstate)
  : Result pstate :=
  match f_terms (p_cur st) with
  | (KAtom, r) :: ts => Ok (set_terms ((KQuantified, mk true r) :: ts) st)
  | _ => nothing_to_repeat
  end.

Definition make_lazy (q : regex) : regex :=
  match q with
  | RStar _ r => RStar false r
  | RPlus _ r => RPlus false r
  | ROpt _ r => ROpt false r
  | r => r
  end.

Definition question (st : pstate) : Result pstate :=
  match f_terms (p_cur st) with
  | (KAtom, r) :: ts => Ok (set_terms ((KQuantified, ROpt true r) :: ts) st)
  | (KQuantified, q) :: ts => Ok (set_terms ((KLazy, make_lazy q) :: ts) st)
  | _ => nothing_to_repeat
  end.

Definition open_group (capturing : bool) (st : pstate) : pstate :=
  if capturing then
    mkState MNormal (mkFrame [] [])
      ((p_cur st, Some (p_next st)) :: p_stack st) (S (p_next st))
  else
    mkState MNormal (mkFrame [] []) ((p_cur st, None) :: p_stack st)
      (p_next st).

Definition close_group (st : pstate) : Result pstate :=
  match p_stack st with
  | [] => Throw (SyntaxError "Unmatched ')'")
  | (outer, g) :: stack =>
      let body := frame_regex (p_cur st) in
      let atom := match g with Some i => RGroup i body | None => body end in
      Ok (mkState MNormal
            (mkFrame (f_alts outer) ((KAtom, atom) :: f_terms outer))
            stack (p_next st))
  end.

Definition next_alternative (st : pstate) : pstate :=
  mkState MNormal
    (mkFrame (seq_of_terms (f_terms (p_cur st)) :: f_alts (p_cur st)) [])
    (p_stack st) (p_next st).

Definition chr (b a : ascii) : bool := Ascii.eqb a b.

Definition class_escape (a : ascii) : option class_item :=
  if chr "d" a then Some (CDigit true) else
  if chr "D" a then Some (CDigit false) else
  if chr "s" a then Some (CSpace true) else
  if chr "S" a then Some (CSpace false) else
  if chr "w" a then Some (CWord true) else
  if chr "W" a then Some (CWord false) else None.

Definition control_escape (a : ascii) : option ascii :=
  if chr "t" a then Some (ascii_of_nat 9) else
  if chr "n" a then Some (ascii_of_nat 10) else
  if chr "v" a then Some (ascii_of_nat 11) else
  if chr "f" a then Some (ascii_of_nat 12) else
  if chr "r" a then Some (ascii_of_nat 13) else None.

Definition numeric_escape (a : ascii) : bool :=
  Str.is_digit a || chr "c" a || chr "x" a || chr "u" a.

Definition step_normal (st : pstate) (a : ascii) : Result pstate :=
  if chr "\" a then Ok (set_mode MEscape st) else
  if chr "(" a then Ok (set_mode MGroupOpen st) else
  if chr ")" a then close_group st else
  if chr "[" a then Ok (set_mode MClassOpen st) else
  if chr "|" a then Ok (next_alternative st) else
  if chr "*" a then quantify RStar st else
  if chr "+" a then quantify RPlus st else
  if chr "?" a then question st else
  if chr "{" a then Throw (NotModelled "brace in a pattern") else
  if chr "^" a then Ok (push_term (KAssertion, RBol) st) else
  if chr "$" a then Ok (push_term (KAssertion, REol) st) else
  if chr "." a then Ok (push_term (KAtom, RAny) st) else
  Ok (push_term (KAtom, RChar a) st).

Definition step_escape (st : pstate) (a : ascii) : Result pstate :=
  match class_escape a with
  | Some it => Ok (push_term (KAtom, RSet false [it]) st)
  | None =>
      match control_escape a with
      | Some b => Ok (push_term (KAtom, RChar b) st)
      | None =>
          if numeric_escape a || chr "b" a || chr "B" a || chr "k" a
          then Throw (NotModelled "escape in a pattern")
          else Ok (push_term (KAtom, RChar a) st)
      end
  end.

Definition step_group_spec (st : pstate) (a : ascii) : Result pstate :=
  if chr ":" a then Ok (open_group false st) else
  if chr "=" a || chr "!" a || chr "<" a
  then Throw (NotModelled "look-around or named group")
  else Throw (SyntaxError "Invalid group").

Definition class_add (neg : bool) (items : list class_item)
           (pend : class_pend) (b : ascii) (st : pstate) : Result pstate :=
  match pend, items with
  | PDash, CChar lo :: items' =>
      if Str.code lo <=? Str.code b
      then Ok (set_mode (MClass neg (CRange lo b :: items') PNone) st)
      else Throw (SyntaxError "Range out of order in character class")
  | _, _ => Ok (set_mode (MClass neg (CChar b :: items) PAtom) st)
  end.

Definition flush_dash (items : list class_item) (pend : class_pend)
  : list class_item :=
  match pend with
  | PDash => CChar "-" :: items
  | _ => items
  end.

Definition step_class (neg : bool) (items : list class_item)
           (pend : class_pend) (st : pstate) (a : ascii) : Result pstate :=
  if chr "]" a then
    Ok (push_term (KAtom, RSet neg (rev (flush_dash items pend))) st) else
  if chr "\" a then Ok (set_mode (MClassEscape neg items pend) st) else
  if chr "-" a then
    match pend with
    | PAtom => Ok (set_mode (MClass neg items PDash) st)
    | _ => class_add neg items pend a st
    end
  else class_add neg items pend a st.

Definition step_class_escape (neg : bool) (items : list class_item)
           (pend : class_pend) (st : pstate) (a : ascii) : Result pstate :=
  match class_escape a with
  | Some it =>
      Ok (set_mode (MClass neg (it :: flush_dash items pend) PNone) st)
  | None =>
      match control_escape a with
      | Some b => class_add neg items pend b st
      | None =>
          if numeric_escape a
          then Throw (NotModelled "escape in a character class")
          else if chr "b" a then class_add neg items pend (ascii_of_nat 8) st
          else class_add neg items pend a st
      end
  end.

Definition step (st : pstate) (a : ascii) : Result pstate :=
  match p_mode st with
  | MNormal => step_normal st a
  | MEscape => step_escape st a
  | MGroupOpen =>
      if chr "?" a then Ok (set_mode MGroupSpec st)
      else step_normal (open_group true st) a
  | MGroupSpec => step_group_spec st a
  | MClassOpen =>
      if chr "^" a then Ok (set_mode (MClass true [] PNone) st)
      else step_class false [] PNone st a
  | MClass neg items pend => step_class neg items pend st a
  | MClassEscape neg items pend => step_class_escape neg items pend st a
  end.

Fixpoint run (st : pstate) (src : string) : Result pstate :=
  match src with
  | "" => Ok st
  | String a src' => st' <- step st a ;; run st' src'
  end.

Definition finish (st : pstate) : Result regex :=
  match p_mode st with
  | MNormal =>
      match p_stack st with
      | [] => Ok (frame_regex (p_cur st))
      | _ => Throw (SyntaxError "Unterminated group")
      end
  | MEscape => Throw (SyntaxError "\ at end of pattern")
  | MGroupOpen | MGroupSpec => Throw (SyntaxError "Unterminated group")
  | _ => Throw (SyntaxError "Unterminated character class")
  end.

Definition parse (src : string) : Result regex :=
  st <- run initial src ;; finish st.

End Parser.

(** The message of the [SyntaxError] names the source and the reason. *)
Definition new_RegExp (source : string) : Result regex :=
  match Parser.parse source with
  | Throw (SyntaxError reason) =>
      Throw (SyntaxError
               ("Invalid regular expression: /" ++ source ++ "/: " ++ reason))
  | result => result
  end.

(** ** The [RegExp] and [String] methods that the extension calls *)

Module JS.

(** [RegExp.prototype.test] *)
Definition test (r : regex) (s : string) : bool :=
  match exec r s with
  | Some _ => true
  | None => false
  end.

(** [String.prototype.match] with a pattern without the [g] flag. *)
Definition match_ (s : string) (r : regex) : option MatchResult := exec r s.

(** [prefixMatch[i]] for [i >= 1]: [None] is [undefined], for a group that
    did not take part in the match as for an index past the last group. *)
Definition group (i : nat) (m : MatchResult) : option string :=
  match i with
  | O => Some (m_matched m)
  | S i' => nth i' (m_groups m) None
  end.

(** ToString of a value that is a string or [undefined]. *)
Definition toString (v : option string) : string :=
  match v with
  | Some s => s
  | None => "undefined"
  end.

Definition capture_text (caps : list (option string)) (i : nat) : string :=
  match nth (i - 1) caps None with
  | Some s => s
  | None => ""
  end.

Definition valid_index (caps : list (option string)) (i : nat) : bool :=
  (1 <=? i) && (i <=? List.length caps).

(** GetSubstitution: expand [$$], [$&], [$`], [$'] and [$n], [$nn] in a
    replacement text; there are no named groups, so [$<] stays as it is. *)
Fixpoint getSubstitution (matched before after : string)
         (caps : list (option string)) (template : string) : string :=
  match template with
  | "" => ""
  | String a t1 =>
      if negb (Ascii.eqb a "$") then
        String a (getSubstitution matched before after caps t1)
      else
        let literal :=
          String a (getSubstitution matched before after caps t1) in
        match t1 with
        | "" => literal
        | String b t2 =>
            if Ascii.eqb b "$" then
              String "$" (getSubstitution matched before after caps t2)
            else if Ascii.eqb b "&" then
              matched ++ getSubstitution matched before after caps t2
            else if Ascii.eqb b "`" then
              before ++ getSubstitution matched before after caps t2
            else if Ascii.eqb b "'" then
              after ++ getSubstitution matched before after caps t2
            else if Str.is_digit b then
              let one :=
                if valid_index caps (Str.digit_value b)
                then capture_text caps (Str.digit_value b)
                       ++ getSubstitution matched before after caps t2
                else literal in
              match t2 with
              | "" => one
              | String d t3 =>
                  let i := 10 * Str.digit_value b + Str.digit_value d in
                  if Str.is_digit d && valid_index caps i
                  then capture_text caps i
                         ++ getSubstitution matched before after caps t3
                  else one
              end
            else literal
        end
  end.

(** [String.prototype.replace] with a pattern without the [g] flag. *)
Definition replace (s : string) (r : regex) (template : string) : string :=
  match exec r s with
  | None => s
  | Some m =>
      let before := Str.take (m_index m) s in
      before
        ++ getSubstitution (m_matched m) before (m_after m) (m_groups m)
             template
        ++ m_after m
  end.

(** [String.prototype.replace] with a pattern with the [g] flag.  [s] is
    the input from index [idx] on.  After an empty match the search resumes
    one code unit further; [fuel = S (length s)] is never exhausted. *)
Fixpoint replaceFrom (r : regex) (template whole : string) (fuel idx : nat)
         (s : string) : string :=
  match fuel with
  | O => s
  | S fuel' =>
      match execFrom r (length whole) idx s with
      | None => s
      | Some m =>
          let skipped := Str.take (m_index m - idx) s in
          let replacement :=
            getSubstitution (m_matched m) (Str.take (m_index m) whole)
              (m_after m) (m_groups m) template in
          match m_matched m, m_after m with
          | "", "" => skipped ++ replacement
          | "", String a rest =>
              skipped ++ replacement
                ++ String a
                     (replaceFrom r template whole fuel' (S (m_index m)) rest)
          | matched, rest =>
              skipped ++ replacement
                ++ replaceFrom r template whole fuel'
                     (m_index m + length matched) rest
          end
      end
  end.

Definition replaceGlobal (s : string) (r : regex) (template : string)
  : string :=
  replaceFrom r template s (S (length s)) 0 s.

(** [String.prototype.replace] with a search string: the first occurrence
    only, and the replacement text still goes through GetSubstitution. *)
Definition replaceString (s search replacement : string) : string :=
  match Str.splitFirst search s with
  | None => s
  | Some (before, after) =>
      before ++ getSubstitution search before after [] replacement ++ after
  end.

End JS.

(** ** The extension *)

Definition LOG_PREFIX : string := "[Jira Commit Message]".

Record ExtensionConfig : Type := mkConfig {
  commitMessagePrefixPattern : regex;
  commitMessageFormat : string;
  gitHeadWatchInterval : nat;
  outdatedPrefixPattern : regex
}.

(** The three settings of [vscode.workspace.getConfiguration]; [None] is a
    setting that the user left out, for which [config.get] returns its
    default. *)
Record Settings : Type := mkSettings {
  setting_commitMessagePrefixPattern : option string;
  setting_commitMessageFormat : option string;
  setting_gitHeadWatchInterval : option nat
}.

Definition get {A : Type} (setting : option A) (default : A) : A :=
  match setting with
  | Some v => v
  | None => default
  end.

Definition literal (source : string) : regex :=
  match new_RegExp source with
  | Ok r => r
  | Throw _ => REmpty
  end.

(** The pattern literals of [getExtensionConfig]: [/\(([^)]+)\)/],
    [/[\[\]]/g] and [/\$/g]. *)
Definition groupLiteral : regex := Eval vm_compute in literal "\(([^)]+)\)".
Definition bracketLiteral : regex := Eval vm_compute in literal "[\[\]]".
Definition dollarLiteral : regex := Eval vm_compute in literal "\$".

Definition prefixPatternOf (tagPattern : string) : string :=
  match JS.match_ tagPattern groupLiteral with
  | Some m => JS.toString (JS.group 1 m)
  | None => tagPattern
  end.

Definition outdatedPrefixSource (tagPattern msgFormat : string) : string :=
  let prefixPattern := prefixPatternOf tagPattern in
  JS.replaceGlobal
    (JS.replaceGlobal
       (JS.replaceString
          (JS.replaceString msgFormat "${prefix}" ("(" ++ prefixPattern ++ ")"))
          "${message}" "(.*)")
       bracketLiteral "\$&")
    dollarLiteral "\$".

Definition getExtensionConfig (settings : Settings) : Result ExtensionConfig :=
  let tagPattern :=
    get (setting_commitMessagePrefixPattern settings) "(ML-\d+)-.*" in
  let msgFormat :=
    get (setting_commitMessageFormat settings) "[${prefix}] ${message}" in
  let outdated := outdatedPrefixSource tagPattern msgFormat in
  tagRegExp <- new_RegExp tagPattern ;;
  outdatedRegExp <- new_RegExp outdated ;;
  Ok (mkConfig tagRegExp msgFormat
        (get (setting_gitHeadWatchInterval settings) 1000) outdatedRegExp).

(** The repository handle of the Git extension: the name of [state.HEAD]
    (both [HEAD] and its [name] may be undefined) and the commit input box.
    [inputBox_assignments] records every assignment to [inputBox.value],
    most recent first. *)
Record Branch : Type := mkBranch { name : option string }.

Record Repository : Type := mkRepo {
  rootUri_fsPath : string;
  state_HEAD : option Branch;
  inputBox_value : string;
  inputBox_assignments : list string
}.

Definition set_inputBox_value (repo : Repository) (v : string) : Repository :=
  mkRepo (rootUri_fsPath repo) (state_HEAD repo) v
    (v :: inputBox_assignments repo).

Definition extractCurrentMessage (repo : Repository) (config : ExtensionConfig)
  : string :=
  JS.replace (inputBox_value repo) (outdatedPrefixPattern config) "$2".

Definition getCommitMessage (branch currentMessage : string)
           (config : ExtensionConfig) : Result string :=
  if negb (JS.test (commitMessagePrefixPattern config) branch) then
    Ok currentMessage
  else
    match JS.match_ branch (commitMessagePrefixPattern config) with
    | None => Ok currentMessage
    | Some prefixMatch =>
        let prefix := JS.group 1 prefixMatch in
        prefixRegex <- new_RegExp ("^\[" ++ JS.toString prefix ++ "\]\s") ;;
        if JS.test prefixRegex currentMessage then Ok currentMessage
        else
          let withoutExistingPrefix :=
            Str.trim
              (JS.replace currentMessage (outdatedPrefixPattern config) "") in
          let formattedMessage :=
            JS.replaceString
              (JS.replaceString (commitMessageFormat config) "${prefix}"
                 (JS.toString prefix))
              "${message}" withoutExistingPrefix in
          Ok formattedMessage
    end.

(** [repo.state.HEAD?.name ?? ""] *)
Definition branchOf (repo : Repository) : string :=
  match state_HEAD repo with
  | Some head => get (name head) ""
  | None => ""
  end.

Definition updateCommitMessage (repo : Repository) (config : ExtensionConfig)
           (currentMessage : option string) : Result Repository :=
  let branch := branchOf repo in
  if (branch =? "")%string then Ok repo
  else
    let currentMessage :=
      match currentMessage with
      | None => extractCurrentMessage repo config
      | Some m => m
      end in
    updatedMessage <- getCommitMessage branch currentMessage config ;;
    if negb (inputBox_value repo =? updatedMessage)%string
    then Ok (set_inputBox_value repo updatedMessage)
    else Ok repo.

(** *** RepositoryWatcher *)

(** The watcher's fields, the lines it appended to the output channel
    (oldest first) and the files on which it holds an [fs.watchFile]
    listener.  The callbacks that [setupWatchers] registers with
    [fs.readFile] and [fs.watchFile] run in later turns of the event loop and
    are left out; the pass that they start is a call of
    [safeUpdateCommitMessage]. *)
Record RepositoryWatcher : Type := mkWatcher {
  repo : Repository;
  config : ExtensionConfig;
  gitHeadWatcher : bool;
  refWatcher : option string;
  watchedFiles : list string;
  outputChannel : list string
}.

Definition appendLine (channel : list string) (line : string) : list string :=
  (channel ++ [line])%list.

Definition log (w : RepositoryWatcher) (message : string) : RepositoryWatcher :=
  mkWatcher (repo w) (config w) (gitHeadWatcher w) (refWatcher w)
    (watchedFiles w)
    (appendLine (outputChannel w)
       (LOG_PREFIX ++ " [RepositoryWatcher] " ++ message)).

Definition set_repo (w : RepositoryWatcher) (r : Repository)
  : RepositoryWatcher :=
  mkWatcher r (config w) (gitHeadWatcher w) (refWatcher w) (watchedFiles w)
    (outputChannel w).

Definition set_config (w : RepositoryWatcher) (c : ExtensionConfig)
  : RepositoryWatcher :=
  mkWatcher (repo w) c (gitHeadWatcher w) (refWatcher w) (watchedFiles w)
    (outputChannel w).

Definition gitHeadPath (w : RepositoryWatcher) : string :=
  rootUri_fsPath (repo w) ++ "/.git/HEAD".

Definition unwatchFile (path : string) (files : list string) : list string :=
  filter (fun f => negb (f =? path)%string) files.

Definition safeUpdateCommitMessage (w : RepositoryWatcher)
           (currentMessage : option string) : RepositoryWatcher :=
  match updateCommitMessage (repo w) (config w) currentMessage with
  | Ok r => set_repo w r
  | Throw error =>
      log w ("Error updating commit message: " ++ error_message error)
  end.

Definition setupWatchers (w : RepositoryWatcher) : RepositoryWatcher :=
  mkWatcher (repo w) (config w) true (refWatcher w)
    (gitHeadPath w :: watchedFiles w) (outputChannel w).

Definition dispose (w : RepositoryWatcher) : RepositoryWatcher :=
  let w1 :=
    if gitHeadWatcher w then
      mkWatcher (repo w) (config w) (gitHeadWatcher w) (refWatcher w)
        (unwatchFile (gitHeadPath w) (watchedFiles w)) (outputChannel w)
    else w in
  let w2 :=
    match refWatcher w1 with
    | Some path =>
        log (mkWatcher (repo w1) (config w1) (gitHeadWatcher w1)
               (refWatcher w1) (unwatchFile path (watchedFiles w1))
               (outputChannel w1))
          ("Stopped watching branch ref file: " ++ path)
    | None => w1
    end in
  log w2 ("Stopped watching repository: " ++ rootUri_fsPath (repo w2)).

(** The constructor: the watcher starts with one pass. *)
Definition newRepositoryWatcher (r : Repository) (c : ExtensionConfig)
           (channel : list string) : RepositoryWatcher :=
  let w := mkWatcher r c false None [] channel in
  let w1 := log w ("Watching repository: " ++ rootUri_fsPath r) in
  safeUpdateCommitMessage (setupWatchers w1) None.

Definition updateConfig (w : RepositoryWatcher) (newConfig : ExtensionConfig)
  : RepositoryWatcher :=
  let oldConfig := config w in
  let w1 := set_config w newConfig in
  let w2 :=
    if negb (gitHeadWatchInterval oldConfig =? gitHeadWatchInterval newConfig)
    then setupWatchers
           (dispose (log w1 "Watch interval changed, recreating watchers"))
    else w1 in
  let currentMessage := extractCurrentMessage (repo w2) oldConfig in
  safeUpdateCommitMessage w2 (Some currentMessage).

(** *** The command [jira-commit-message.update-message] *)

(** One turn of the [forEach] of the command: the [try] block and its
    [catch], on one repository and the output channel. *)
Definition commandStep (config : ExtensionConfig) (repo : Repository)
           (channel : list string) : Repository * list string :=
  match updateCommitMessage repo config None with
  | Ok r =>
      (r, appendLine channel
            (LOG_PREFIX ++ " Commit message updated via command."))
  | Throw error =>
      (repo,
       appendLine channel
         (LOG_PREFIX ++ " Error executing update command: "
            ++ error_message error))
  end.

Fixpoint updateMessageCommand (config : ExtensionConfig)
         (repositories : list Repository) (channel : list string)
  : list Repository * list string :=
  match repositories with
  | [] => ([], channel)
  | repo :: rest =>
      let (repo', channel') := commandStep config repo channel in
      let (rest', channel'') := updateMessageCommand config rest channel' in
      (repo' :: rest', channel'')
  end.

(** ** Configurations used in the statements *)

Definition defaultSettings : Settings := mkSettings None None None.

Definition configOf (settings : Settings) : ExtensionConfig :=
  match getExtensionConfig settings with
  | Ok c => c
  | Throw _ => mkConfig REmpty "" 0 REmpty
  end.

(** The default configuration: pattern [(ML-\d+)-.*] and format
    [[${prefix}] ${message}]. *)
Definition defaultConfig : ExtensionConfig :=
  Eval vm_compute in configOf defaultSettings.

(** The configuration of the test suite: pattern [(PP-\d+)-.*] and format
    [${prefix} ${message}]. *)
Definition testSettings : Settings :=
  mkSettings (Some "(PP-\d+)-.*") (Some "${prefix} ${message}") None.

Definition testConfig : ExtensionConfig :=
  Eval vm_compute in configOf testSettings.

(** A prefix pattern without a capturing group. *)
Definition noGroupSettings : Settings :=
  mkSettings (Some "ML-\d+-.*") None None.

Definition noGroupConfig : ExtensionConfig :=
  Eval vm_compute in configOf noGroupSettings.

(** A prefix pattern whose only group is optional. *)
Definition optionalGroupSettings : Settings :=
  mkSettings (Some "(ML-\d+)?-.*") None None.

Definition optionalGroupConfig : ExtensionConfig :=
  Eval vm_compute in configOf optionalGroupSettings.

(** The default format with the pattern [(BY-\d+)-.*]. *)
Definition bySettings : Settings := mkSettings (Some "(BY-\d+)-.*") None None.

Definition byConfig : ExtensionConfig :=
  Eval vm_compute in configOf bySettings.

(** The default pattern with a format that puts the message first. *)
Definition messageFirstSettings : Settings :=
  mkSettings None (Some "${message} [${prefix}]") None.

Definition messageFirstConfig : ExtensionConfig :=
  Eval vm_compute in configOf messageFirstSettings.

(** A pattern whose group captures anything: the prefix may then hold
    characters that are special in a pattern. *)
Definition anySettings : Settings := mkSettings (Some "(.+)-x") None None.

Definition anyConfig : ExtensionConfig :=
  Eval vm_compute in configOf anySettings.

Definition repoOn (branch message : string) : Repository :=
  mkRepo "/work" (Some (mkBranch (Some branch))) message [].

Definition detachedRepo (message : string) : Repository :=
  mkRepo "/work" None message [].

Definition watcherOf (r : Repository) (c : ExtensionConfig)
  : RepositoryWatcher :=
  mkWatcher r c true None ["/work/.git/HEAD"] [].

(** ** Specification-side definitions *)

(** The words matched by a pattern, without regard to priorities; the
    anchors are read as the empty word. *)
Inductive lang : regex -> string -> Prop :=
| lang_empty : lang REmpty ""
| lang_char a : lang (RChar a) (String a "")
| lang_any a : Str.is_line_terminator a = false -> lang RAny (String a "")
| lang_set neg items a :
    set_matches neg items a = true -> lang (RSet neg items) (String a "")
| lang_seq r1 r2 w1 w2 :
    lang r1 w1 -> lang r2 w2 -> lang (RSeq r1 r2) (w1 ++ w2)
| lang_alt_l r1 r2 w : lang r1 w -> lang (RAlt r1 r2) w
| lang_alt_r r1 r2 w : lang r2 w -> lang (RAlt r1 r2) w
| lang_star_nil g r : lang (RStar g r) ""
| lang_star_cons g r w1 w2 :
    lang r w1 -> lang (RStar g r) w2 -> lang (RStar g r) (w1 ++ w2)
| lang_plus g r w1 w2 :
    lang r w1 -> lang (RStar g r) w2 -> lang (RPlus g r) (w1 ++ w2)
| lang_opt_nil g r : lang (ROpt g r) ""
| lang_opt_some g r w : lang r w -> lang (ROpt g r) w
| lang_group i r w : lang r w -> lang (RGroup i r) w
| lang_bol : lang RBol ""
| lang_eol : lang REol "".

(** [P i w] holds of every word [w] that group [i] of the pattern can
    capture. *)
Fixpoint respects (P : nat -> string -> Prop) (r : regex) : Prop :=
  match r with
  | RSeq r1 r2 | RAlt r1 r2 => respects P r1 /\ respects P r2
  | RStar _ r1 | RPlus _ r1 | ROpt _ r1 => respects P r1
  | RGroup i r1 => (forall w, lang r1 w -> P i w) /\ respects P r1
  | _ => True
  end.

Definition captures_in (P : nat -> string -> Prop) (c : captures) : Prop :=
  forall i w, c i = Some w -> P i w.

(** The captures of the groups that do not occur in [r] are the same in [c]
    and in [c']. *)
Definition same_outside (r : regex) (c c' : captures) : Prop :=
  forall i, ~ In i (groups_in r) -> c' i = c i.

(** A matcher is sound for a pattern when each of its results comes from
    its continuation, called on what is left after a word of the pattern,
    with captures that [P] still describes and that differ from the initial
    ones on the groups of the pattern only. *)
Definition sound_matcher (A : Type) (P : nat -> string -> Prop)
           (m : matcher A) (r : regex) : Prop :=
  forall s c (k : cont A) z,
    captures_in P c ->
    m s c k = Some z ->
    exists w s' c',
      s = w ++ s' /\ lang r w /\ captures_in P c' /\ same_outside r c c'
      /\ k s' c' = Some z.

Arguments sound_matcher {A} P m r.

(** A matcher is local when it calls its continuation only on inputs that
    are not longer than its own. *)
Definition local_matcher (A : Type) (m : matcher A) : Prop :=
  forall s c (k k' : cont A),
    (forall s' c', length s' <= length s -> k s' c' = k' s' c') ->
    m s c k = m s c k'.

Arguments local_matcher {A} m.

(** Characters that stand for themselves in a pattern and in a replacement
    text: letters, digits, [_] and [-]. *)
Definition plain_char (a : ascii) : bool := Str.is_word a || Ascii.eqb a "-".

Definition plain (s : string) : bool := Str.forallb plain_char s.

(** The pattern that matches the characters of [p] one after the other and
    then [tail]. *)
Fixpoint chars (p : string) (tail : regex) : regex :=
  match p with
  | "" => tail
  | String a p' => RSeq (RChar a) (chars p' tail)
  end.

(** The body of the group of the default pattern and what follows it. *)
Definition ML_group : regex :=
  chars "ML-" (RSeq (RPlus true (RSet false [CDigit true])) REmpty).

Definition ML_tail : regex := RSeq (RChar "-") (RSeq (RStar true RAny) REmpty).

(** The pattern that [getCommitMessage] builds from a prefix [p] of plain
    characters: [^\[p\]\s]. *)
Definition prefixRegexOf (p : string) : regex :=
  RSeq RBol
    (RSeq (RChar "[")
       (chars p (RSeq (RChar "]") (RSeq (RSet false [CSpace true]) REmpty)))).

(** The terms of the parser after it has read the plain characters [p]. *)
Fixpoint push_chars (p : string) (ts : list Parser.term) : list Parser.term :=
  match p with
  | "" => ts
  | String a p' => push_chars p' ((Parser.KAtom, RChar a) :: ts)
  end.

Definition no_dollar (s : string) : bool :=
  Str.forallb (fun a => negb (Ascii.eqb a "$")) s.

(** The issue keys of the default pattern: [ML-] and at least one digit. *)
Definition is_ML_key (p : string) : Prop :=
  exists d ds,
    p = "ML-" ++ String d ds
    /\ Str.is_digit d = true /\ Str.forallb Str.is_digit ds = true.



Definition not_close (a : ascii) : bool := negb (Ascii.eqb a ")").

(** The text between the first [(] that is followed by a character other
    than [)] and the next [)]: the characters other than [)] that follow the
    [(], when there is at least one of them and a [)] after them.  A [(]
    without these is passed over. *)
Fixpoint firstGroupText (s : string) : option string :=
  match s with
  | "" => None
  | String a s' =>
      if Ascii.eqb "(" a then
        match Str.takeWhile not_close s', Str.dropWhile not_close s' with
        | String b w, String _ _ => Some (String b w)
        | _, _ => firstGroupText s'
        end
      else firstGroupText s'
  end.





(** ** Definitions for the properties of a pass *)

Definition not_line_terminator (a : ascii) : bool :=
  negb (Str.is_line_terminator a).

(** A message text without brackets and dollar signs. *)
Definition no_bracket_dollar (t : string) : bool :=
  Str.forallb
    (fun a => negb (Ascii.eqb "[" a) && negb (Ascii.eqb a "$")) t.

(** The input box after the pass has computed [message]: the assignment is
    made only when the value differs. *)
Definition assignIfDifferent (repo : Repository) (message : string)
  : Repository :=
  if (inputBox_value repo =? message)%string then repo
  else set_inputBox_value repo message.

(** ** The watcher's callbacks *)

(** [setupRefWatcher]: the listener on the old ref file is removed, one is
    put on the new ref file, and the new path is recorded. *)
Definition setupRefWatcher (w : RepositoryWatcher) (refPath : string)
  : RepositoryWatcher :=
  let w1 :=
    match refWatcher w with
    | Some old =>
        log (mkWatcher (repo w) (config w) (gitHeadWatcher w) (refWatcher w)
               (unwatchFile old (watchedFiles w)) (outputChannel w))
          ("Stopped watching old ref file: " ++ old)
    | None => w
    end in
  let w2 :=
    log (mkWatcher (repo w1) (config w1) (gitHeadWatcher w1) (refWatcher w1)
           (refPath :: watchedFiles w1) (outputChannel w1))
      ("Watching branch ref file: " ++ refPath) in
  mkWatcher (repo w2) (config w2) (gitHeadWatcher w2) (Some refPath)
    (watchedFiles w2) (outputChannel w2).

(** [String.prototype.split] with a separator of one character. *)
Fixpoint splitOn (sep : ascii) (s : string) : list string :=
  match s with
  | "" => [""]
  | String a s' =>
      if Ascii.eqb a sep then "" :: splitOn sep s'
      else match splitOn sep s' with
           | piece :: pieces => String a piece :: pieces
           | [] => [String a ""]
           end
  end.

(** What a callback does: it returns, or it throws the [TypeError] of a
    method call on [undefined]. *)
Inductive Outcome (A : Type) : Type :=
| Returned (a : A)
| TypeError (message : string).

Arguments Returned {A} a.
Arguments TypeError {A} message.

Section HostPaths.

(** [path.join] on two paths and [path.dirname], of the host. *)
Variable join : string -> string -> string.
Variable dirname : string -> string.

Definition getBranchRefPath (gitDir headContent : string)
  : Outcome (option string) :=
  if negb (Str.startsWith "ref:" headContent) then Returned None
  else
    match nth_error (splitOn " " headContent) 1 with
    | None => TypeError "Cannot read properties of undefined (reading 'trim')"
    | Some piece => Returned (Some (join gitDir (Str.trim piece)))
    end.

(** The callback of [fs.readFile] in [handleGitHeadChange]; [read] is the
    error message or the content of the file.  The test [if (refPath)]
    fails for [null] and for the empty string. *)
Definition onHeadChangeRead (w : RepositoryWatcher) (gitHeadPath : string)
           (read : string + string) : Outcome RepositoryWatcher :=
  match read with
  | inl message => Returned (log w ("Error reading HEAD file: " ++ message))
  | inr headContent =>
      let gitDir := dirname gitHeadPath in
      match getBranchRefPath gitDir headContent with
      | TypeError message => TypeError message
      | Returned refPath =>
          let w1 := log w ("Headcontent is now " ++ headContent) in
          let w2 :=
            match refPath with
            | Some path =>
                if (path =? "")%string then w1 else setupRefWatcher w1 path
            | None => w1
            end in
          Returned (safeUpdateCommitMessage w2 None)
      end
  end.

(** The callback of [fs.readFile] in [setupWatchers]. *)
Definition onSetupRead (w : RepositoryWatcher) (gitDir : string)
           (read : string + string) : Outcome RepositoryWatcher :=
  match read with
  | inl message => Returned (log w ("Error reading .git/HEAD: " ++ message))
  | inr headContent =>
      match getBranchRefPath gitDir headContent with
      | TypeError message => TypeError message
      | Returned (Some path) =>
          Returned (if (path =? "")%string then w else setupRefWatcher w path)
      | Returned None => Returned w
      end
  end.

End HostPaths.

(** Every file on which the watcher holds a listener is its [HEAD] file or
    the ref file that it has recorded. *)
Definition listeners_known (w : RepositoryWatcher) : Prop :=
  forall f, In f (watchedFiles w) ->
            f = gitHeadPath w \/ refWatcher w = Some f.

(** ** The list of watchers *)

(** The watchers of [activate], each with the identity of the repository
    object that it holds (the test [watcher.repo === repo] compares
    objects), and the output channel that they share: a watcher runs on the
    current lines of the channel and the channel takes the lines that it
    leaves. *)
Record Extension : Type := mkExtension {
  currentConfig : ExtensionConfig;
  repoWatchers : list (nat * RepositoryWatcher);
  channel : list string
}.

Definition onChannel (lines : list string) (w : RepositoryWatcher)
  : RepositoryWatcher :=
  mkWatcher (repo w) (config w) (gitHeadWatcher w) (refWatcher w)
    (watchedFiles w) lines.

Definition watches (id : nat) (entry : nat * RepositoryWatcher) : bool :=
  fst entry =? id.

Definition addRepoWatcher (ext : Extension) (id : nat) (r : Repository)
  : Extension :=
  match find (watches id) (repoWatchers ext) with
  | Some _ => ext
  | None =>
      let watcher := newRepositoryWatcher r (currentConfig ext) (channel ext) in
      mkExtension (currentConfig ext)
        (repoWatchers ext ++ [(id, watcher)])%list (outputChannel watcher)
  end.

(** [updateRepositoryWatchers]: the loop over [repoWatchers]. *)
Fixpoint updateWatchers (newConfig : ExtensionConfig)
         (watchers : list (nat * RepositoryWatcher)) (lines : list string)
  : list (nat * RepositoryWatcher) * list string :=
  match watchers with
  | [] => ([], lines)
  | (id, w) :: rest =>
      let w' := updateConfig (onChannel lines w) newConfig in
      let (rest', lines') := updateWatchers newConfig rest (outputChannel w') in
      ((id, w') :: rest', lines')
  end.

Definition updateRepositoryWatchers (ext : Extension)
           (newConfig : ExtensionConfig) : Extension :=
  let (watchers, lines) :=
    updateWatchers newConfig (repoWatchers ext) (channel ext) in
  mkExtension (currentConfig ext) watchers lines.

(** A character other than the separator of [headContent.split]. *)
Definition no_space_char (a : ascii) : bool := negb (Ascii.eqb a " ").

(** * Properties *)

(** ** Strings *)

Lemma append_nil_r (s : string) : s ++ "" = s.
Proof. induction s; simpl; congruence. Qed.

Lemma append_assoc (a b c : string) : (a ++ b) ++ c = a ++ (b ++ c).
Proof. induction a; simpl; congruence. Qed.

Lemma length_append (a b : string) : length (a ++ b) = length a + length b.
Proof. induction a; simpl; auto. Qed.

Lemma take_append (w s : string) : Str.take (length w) (w ++ s) = w.
Proof. induction w; simpl; [destruct s|]; congruence. Qed.

Lemma consumed_append (w s : string) : Str.consumed (w ++ s) s = w.
Proof.
  unfold Str.consumed. rewrite length_append.
  replace (length w + length s - length s) with (length w) by lia.
  apply take_append.
Qed.



(** ** The matcher finds words of the pattern *)

Section Soundness.

Variable n : nat.
Variable A : Type.
Variable P : nat -> string -> Prop.

Lemma captures_in_none : captures_in P no_captures.
Proof. intros i w H. discriminate H. Qed.

Lemma captures_in_clear l c :
  captures_in P c -> captures_in P (clear_captures l c).
Proof.
  intros Hc i w. unfold clear_captures.
  destruct (existsb (Nat.eqb i) l); [discriminate | apply Hc].
Qed.

Lemma captures_in_set i v c :
  captures_in P c -> P i v -> captures_in P (set_capture i v c).
Proof.
  intros Hc Hv j w. unfold set_capture.
  destruct (Nat.eqb_spec j i) as [-> | _]; [| apply Hc].
  intros [= <-]. exact Hv.
Qed.

Lemma matchChar_inv (p : ascii -> bool) s c (k : cont A) z :
  matchChar p s c k = Some z ->
  exists a s', s = String a s' /\ p a = true /\ k s' c = Some z.
Proof.
  destruct s as [| a s']; simpl; [discriminate |].
  destruct (p a) eqn:Hp; [| discriminate].
  intros H. exists a, s'. auto.
Qed.


Lemma same_outside_clear r r' c c' :
  (forall i, In i (groups_in r) -> In i (groups_in r')) ->
  same_outside r (clear_captures (groups_in r) c) c' ->
  same_outside r' c c'.
Proof.
  intros Hsub H i Hi. rewrite H by auto. unfold clear_captures.
  destruct (existsb (Nat.eqb i) (groups_in r)) eqn:He; [| reflexivity].
  apply existsb_exists in He. destruct He as (j & Hj & Hij).
  apply Nat.eqb_eq in Hij. subst j. contradict Hi. auto.
Qed.

Lemma same_outside_trans r1 r2 r c1 c2 c3 :
  (forall i, In i (groups_in r1) -> In i (groups_in r)) ->
  (forall i, In i (groups_in r2) -> In i (groups_in r)) ->
  same_outside r1 c1 c2 -> same_outside r2 c2 c3 -> same_outside r c1 c3.
Proof.
  intros H1 H2 H12 H23 i Hi. rewrite H23, H12; auto.
Qed.

Lemma repeatStar_sound m g g' r :
  sound_matcher P m r ->
  forall fuel,
    sound_matcher P (repeatStar (A := A) m (groups_in r) g fuel)
      (RStar g' r).
Proof.
  intros Hm fuel. induction fuel as [| fuel IH]; intros s c k z Hc H.
  - discriminate H.
  - simpl in H.
    assert (Hiter :
      m s (clear_captures (groups_in r) c)
        (fun s' c' =>
           if length s' =? length s then None
           else repeatStar m (groups_in r) g fuel s' c' k) = Some z ->
      exists w s' c',
        s = w ++ s' /\ lang (RStar g' r) w /\ captures_in P c'
        /\ same_outside (RStar g' r) c c' /\ k s' c' = Some z).
    { intros Hi.
      apply Hm in Hi; [| now apply captures_in_clear].
      destruct Hi as (w1 & s1 & c1 & -> & Hw1 & Hc1 & Ho1 & Hk).
      destruct (length s1 =? length (w1 ++ s1)); [discriminate |].
      apply IH in Hk; [| assumption].
      destruct Hk as (w2 & s2 & c2 & -> & Hw2 & Hc2 & Ho2 & Hk).
      exists (w1 ++ w2), s2, c2. rewrite append_assoc.
      repeat split; auto.
      - now constructor.
      - apply (same_outside_clear r (RStar g' r)) in Ho1; [| auto].
        apply (same_outside_trans (RStar g' r) (RStar g' r) (RStar g' r)
                 c c1 c2); auto. }
    assert (Hskip :
      k s c = Some z ->
      exists w s' c',
        s = w ++ s' /\ lang (RStar g' r) w /\ captures_in P c'
        /\ same_outside (RStar g' r) c c' /\ k s' c' = Some z).
    { intros Hk. exists "", s, c. repeat split; auto. constructor. }
    destruct g.
    + destruct (m s (clear_captures (groups_in r) c) _) eqn:Hi.
      * injection H as ->. now apply Hiter.
      * now apply Hskip.
    + destruct (k s c) eqn:Hk.
      * injection H as ->. now apply Hskip.
      * now apply Hiter.
Qed.

Lemma repeatOpt_sound m g g' r :
  sound_matcher P m r ->
  sound_matcher P (repeatOpt (A := A) m (groups_in r) g) (ROpt g' r).
Proof.
  intros Hm s c k z Hc H. unfold repeatOpt in H.
  assert (Hiter :
    m s (clear_captures (groups_in r) c)
      (fun s' c' => if length s' =? length s then None else k s' c')
      = Some z ->
    exists w s' c',
      s = w ++ s' /\ lang (ROpt g' r) w /\ captures_in P c'
      /\ same_outside (ROpt g' r) c c' /\ k s' c' = Some z).
  { intros Hi.
    apply Hm in Hi; [| now apply captures_in_clear].
    destruct Hi as (w1 & s1 & c1 & -> & Hw1 & Hc1 & Ho1 & Hk).
    destruct (length s1 =? length (w1 ++ s1)); [discriminate |].
    exists w1, s1, c1. repeat split; auto.
    - now constructor.
    - apply (same_outside_clear r (ROpt g' r)) in Ho1; auto. }
  assert (Hskip :
    k s c = Some z ->
    exists w s' c',
      s = w ++ s' /\ lang (ROpt g' r) w /\ captures_in P c'
      /\ same_outside (ROpt g' r) c c' /\ k s' c' = Some z).
  { intros Hk. exists "", s, c. repeat split; auto. constructor. }
  destruct g.
  - destruct (m s (clear_captures (groups_in r) c) _) eqn:Hi.
    + injection H as ->. now apply Hiter.
    + now apply Hskip.
  - destruct (k s c) eqn:Hk.
    + injection H as ->. now apply Hskip.
    + now apply Hiter.
Qed.

Lemma rmatch_sound r :
  respects P r -> sound_matcher P (rmatch (A := A) n r) r.
Proof.
  induction r as [| a | | neg items | r1 IH1 r2 IH2 | r1 IH1 r2 IH2
                  | g r1 IH1 | g r1 IH1 | g r1 IH1 | i r1 IH1 | |];
    intros HP s c k z Hc H; cbn [rmatch] in H.
  - exists "", s, c. repeat split; auto. constructor.
  - apply matchChar_inv in H. destruct H as (b & s' & -> & Hb & Hk).
    apply Ascii.eqb_eq in Hb. subst b.
    exists (String a ""), s', c. repeat split; auto. constructor.
  - apply matchChar_inv in H. destruct H as (b & s' & -> & Hb & Hk).
    exists (String b ""), s', c. repeat split; auto. constructor.
    now apply negb_true_iff in Hb.
  - apply matchChar_inv in H. destruct H as (b & s' & -> & Hb & Hk).
    exists (String b ""), s', c. repeat split; auto. now constructor.
  - destruct HP as [HP1 HP2].
    apply (IH1 HP1) in H; [| assumption].
    destruct H as (w1 & s1 & c1 & -> & Hw1 & Hc1 & Ho1 & Hk).
    apply (IH2 HP2) in Hk; [| assumption].
    destruct Hk as (w2 & s2 & c2 & -> & Hw2 & Hc2 & Ho2 & Hk).
    exists (w1 ++ w2), s2, c2. rewrite append_assoc.
    repeat split; auto.
    + now constructor.
    + apply (same_outside_trans r1 r2 (RSeq r1 r2) c c1 c2); auto;
        intros j Hj; simpl; apply in_or_app; auto.
  - destruct HP as [HP1 HP2].
    destruct (rmatch n r1 s c k) eqn:H1.
    + injection H as ->. apply (IH1 HP1) in H1; [| assumption].
      destruct H1 as (w & s' & c' & -> & Hw & Hc' & Ho & Hk).
      exists w, s', c'. repeat split; auto.
      * now apply lang_alt_l.
      * intros j Hj. apply Ho. contradict Hj. simpl. apply in_or_app. auto.
    + apply (IH2 HP2) in H; [| assumption].
      destruct H as (w & s' & c' & -> & Hw & Hc' & Ho & Hk).
      exists w, s', c'. repeat split; auto.
      * now apply lang_alt_r.
      * intros j Hj. apply Ho. contradict Hj. simpl. apply in_or_app. auto.
  - simpl in HP.
    eapply repeatStar_sound; [exact (IH1 HP) | exact Hc | exact H].
  - simpl in HP.
    apply (IH1 HP) in H; [| now apply captures_in_clear].
    destruct H as (w1 & s1 & c1 & -> & Hw1 & Hc1 & Ho1 & Hk).
    eapply repeatStar_sound with (g' := g) in Hk;
      [| exact (IH1 HP) | exact Hc1].
    destruct Hk as (w2 & s2 & c2 & -> & Hw2 & Hc2 & Ho2 & Hk).
    exists (w1 ++ w2), s2, c2. rewrite append_assoc.
    repeat split; auto.
    + now constructor.
    + apply (same_outside_clear r1 (RPlus g r1)) in Ho1; [| auto].
      apply (same_outside_trans (RPlus g r1) (RStar g r1) (RPlus g r1)
               c c1 c2); auto.
  - simpl in HP.
    eapply repeatOpt_sound; [exact (IH1 HP) | exact Hc | exact H].
  - destruct HP as [HPi HP1].
    apply (IH1 HP1) in H; [| assumption].
    destruct H as (w & s' & c' & -> & Hw & Hc' & Ho & Hk).
    rewrite consumed_append in Hk.
    exists w, s', (set_capture i w c'). repeat split; auto.
    + now constructor.
    + apply captures_in_set; auto.
    + intros j Hj. simpl in Hj. unfold set_capture.
      destruct (Nat.eqb_spec j i) as [-> | _]; [tauto |].
      apply Ho. tauto.
  - destruct (length s =? n); [| discriminate].
    exists "", s, c. repeat split; auto. constructor.
  - destruct s; [| discriminate].
    exists "", "", c. repeat split; auto. constructor.
Qed.

End Soundness.

(** ** The fuel of the repetitions is never exhausted *)

Section Fuel.

Variable n : nat.
Variable A : Type.

Lemma repeatStar_local (m : matcher A) gs g :
  local_matcher m -> forall fuel, local_matcher (repeatStar m gs g fuel).
Proof.
  intros Hm fuel. induction fuel as [| fuel IH]; intros s c k k' Hk.
  - reflexivity.
  - cbn [repeatStar].
    assert (Hd :
      m s (clear_captures gs c)
        (fun s' c' =>
           if length s' =? length s then None
           else repeatStar m gs g fuel s' c' k)
      = m s (clear_captures gs c)
          (fun s' c' =>
             if length s' =? length s then None
             else repeatStar m gs g fuel s' c' k')).
    { apply Hm. intros s' c' Hs'.
      destruct (length s' =? length s); [reflexivity |].
      apply IH. intros s'' c'' Hs''. apply Hk. lia. }
    rewrite Hd, (Hk s c) by lia. reflexivity.
Qed.

Lemma rmatch_local r : local_matcher (rmatch n (A := A) r).
Proof.
  induction r as [| a | | neg items | r1 IH1 r2 IH2 | r1 IH1 r2 IH2
                  | g r1 IH1 | g r1 IH1 | g r1 IH1 | i r1 IH1 | |];
    intros s c k k' Hk; cbn [rmatch].
  - apply Hk. lia.
  - destruct s as [| b s]; [reflexivity |]. cbn [matchChar].
    destruct (Ascii.eqb a b); [| reflexivity]. apply Hk. simpl. lia.
  - destruct s as [| b s]; [reflexivity |]. cbn [matchChar].
    destruct (negb (Str.is_line_terminator b)); [| reflexivity].
    apply Hk. simpl. lia.
  - destruct s as [| b s]; [reflexivity |]. cbn [matchChar].
    destruct (set_matches neg items b); [| reflexivity].
    apply Hk. simpl. lia.
  - apply IH1. intros s' c' Hs'. apply IH2.
    intros s'' c'' Hs''. apply Hk. lia.
  - rewrite (IH1 s c k k' Hk), (IH2 s c k k' Hk). reflexivity.
  - now apply repeatStar_local.
  - apply IH1. intros s' c' Hs'. apply repeatStar_local; [exact IH1 |].
    intros s'' c'' Hs''. apply Hk. lia.
  - unfold repeatOpt.
    assert (Hd :
      rmatch n r1 s (clear_captures (groups_in r1) c)
        (fun s' c' => if length s' =? length s then None else k s' c')
      = rmatch n r1 s (clear_captures (groups_in r1) c)
          (fun s' c' => if length s' =? length s then None else k' s' c')).
    { apply IH1. intros s' c' Hs'.
      destruct (length s' =? length s); [reflexivity |]. now apply Hk. }
    rewrite Hd, (Hk s c) by lia. reflexivity.
  - apply IH1. intros s' c' Hs'. now apply Hk.
  - destruct (length s =? n); [| reflexivity]. apply Hk. lia.
  - destruct s; [| reflexivity]. apply Hk. lia.
Qed.

(** Any fuel above the length of the input gives the same result. *)
Lemma repeatStar_fuel (m : matcher A) gs g :
  local_matcher m ->
  forall fuel fuel' s c k,
    length s < fuel -> length s < fuel' ->
    repeatStar m gs g fuel s c k = repeatStar m gs g fuel' s c k.
Proof.
  intros Hm fuel.
  induction fuel as [| fuel IH]; intros fuel' s c k H1 H2; [lia |].
  destruct fuel' as [| fuel']; [lia |]. cbn [repeatStar].
  assert (Hd :
    m s (clear_captures gs c)
      (fun s' c' =>
         if length s' =? length s then None
         else repeatStar m gs g fuel s' c' k)
    = m s (clear_captures gs c)
        (fun s' c' =>
           if length s' =? length s then None
           else repeatStar m gs g fuel' s' c' k)).
  { apply Hm. intros s' c' Hs'.
    destruct (Nat.eqb_spec (length s') (length s)); [reflexivity |].
    apply IH; lia. }
  now rewrite Hd.
Qed.

Lemma rmatch_star_fuel g r fuel s c (k : cont A) :
  length s < fuel ->
  rmatch n (RStar g r) s c k
  = repeatStar (rmatch n r) (groups_in r) g fuel s c k.
Proof.
  intros H. cbn [rmatch].
  apply repeatStar_fuel; [apply rmatch_local | lia | exact H].
Qed.

End Fuel.

(** ** Results of [exec] *)

Lemma nth_map_seq (f : nat -> option string) k a i w :
  nth i (map f (seq a k)) None = Some w -> f (a + i) = Some w.
Proof.
  revert a i. induction k as [| k IH]; intros a i; simpl.
  - destruct i; discriminate.
  - destruct i as [| i].
    + now rewrite Nat.add_0_r.
    + intros H. apply IH in H. now rewrite Nat.add_succ_r.
Qed.

Section ExecSound.

Variable P : nat -> string -> Prop.
Variable r : regex.
Hypothesis HP : respects P r.

Lemma matchAt_sound n idx s m :
  matchAt r n idx s = Some m ->
  m_index m = idx
  /\ s = m_matched m ++ m_after m
  /\ lang r (m_matched m)
  /\ (forall i w, JS.group (S i) m = Some w -> P (S i) w).
Proof.
  unfold matchAt. intros H.
  eapply rmatch_sound in H; [| exact HP | apply captures_in_none].
  destruct H as (w & s' & c' & -> & Hw & Hc & _ & [= <-]). simpl.
  rewrite consumed_append. repeat split; auto.
  intros i v Hv. apply nth_map_seq in Hv. now apply Hc.
Qed.

Lemma execFrom_sound n s : forall idx m,
  execFrom r n idx s = Some m ->
  exists skipped,
    s = skipped ++ m_matched m ++ m_after m
    /\ m_index m = idx + length skipped
    /\ lang r (m_matched m)
    /\ (forall i w, JS.group (S i) m = Some w -> P (S i) w).
Proof.
  induction s as [| a s IH]; intros idx m; simpl.
  - destruct (matchAt r n idx "") eqn:Hm; [| discriminate].
    intros [= ->]. apply matchAt_sound in Hm.
    destruct Hm as (Hi & Hs & Hw & Hg).
    exists "". simpl. rewrite Nat.add_0_r. auto.
  - destruct (matchAt r n idx (String a s)) eqn:Hm.
    + intros [= ->]. apply matchAt_sound in Hm.
      destruct Hm as (Hi & Hs & Hw & Hg).
      exists "". simpl. rewrite Nat.add_0_r. auto.
    + intros H. apply IH in H.
      destruct H as (skipped & Hs & Hi & Hw & Hg).
      exists (String a skipped). simpl. rewrite <- Hs.
      rewrite Hi. repeat split; auto; lia.
Qed.

Lemma exec_sound s m :
  exec r s = Some m ->
  s = Str.take (m_index m) s ++ m_matched m ++ m_after m
  /\ lang r (m_matched m)
  /\ (forall i w, JS.group (S i) m = Some w -> P (S i) w).
Proof.
  unfold exec. intros H. apply execFrom_sound in H.
  destruct H as (skipped & Hs & Hi & Hw & Hg). simpl in Hi.
  repeat split; auto.
  rewrite Hi. simpl. rewrite Hs at 2. now rewrite take_append.
Qed.

End ExecSound.

Lemma respects_True r : respects (fun _ _ => True) r.
Proof. induction r; simpl; auto. Qed.

Lemma execFrom_split r n s idx m :
  execFrom r n idx s = Some m ->
  exists skipped, s = skipped ++ m_matched m ++ m_after m.
Proof.
  intros H.
  destruct (execFrom_sound (fun _ _ => True) r (respects_True r) n s idx m H)
    as (skipped & Hs & _).
  now exists skipped.
Qed.

(** The global replacement too gives the same result with any fuel above
    the length of the input. *)
Lemma replaceFrom_fuel r template whole :
  forall fuel fuel' idx s,
    length s < fuel -> length s < fuel' ->
    JS.replaceFrom r template whole fuel idx s
    = JS.replaceFrom r template whole fuel' idx s.
Proof.
  induction fuel as [| fuel IH]; intros fuel' idx s H1 H2; [lia |].
  destruct fuel' as [| fuel']; [lia |]. cbn [JS.replaceFrom].
  destruct (execFrom r (length whole) idx s) as [m |] eqn:Hm;
    [| reflexivity].
  apply execFrom_split in Hm. destruct Hm as (skipped & Hs).
  assert (Hlen : length s
                 = length skipped + length (m_matched m)
                   + length (m_after m)).
  { rewrite Hs at 1. rewrite !length_append. lia. }
  destruct (m_matched m) as [| b matched];
    destruct (m_after m) as [| a rest]; simpl in Hlen;
    try reflexivity.
  - rewrite (IH fuel' (S (m_index m)) rest) by lia. reflexivity.
  - rewrite (IH fuel' (m_index m + length (String b matched)) "")
      by (simpl; lia).
    reflexivity.
  - rewrite (IH fuel' (m_index m + length (String b matched)) (String a rest))
      by (simpl; lia).
    reflexivity.
Qed.

(** ** The issue keys of the default pattern *)

Lemma lang_star_set g neg items w :
  lang (RStar g (RSet neg items)) w ->
  Str.forallb (set_matches neg items) w = true.
Proof.
  intros H. remember (RStar g (RSet neg items)) as r eqn:Hr.
  induction H; try discriminate.
  - reflexivity.
  - injection Hr as -> ->. inversion H; subst. simpl.
    rewrite H4. simpl. now apply IHlang2.
Qed.

Lemma forallb_impl (p q : ascii -> bool) s :
  (forall a, p a = true -> q a = true) ->
  Str.forallb p s = true -> Str.forallb q s = true.
Proof.
  intros Hpq. induction s as [| a s IH]; simpl; [reflexivity |].
  intros H. apply andb_true_iff in H. destruct H as [Ha Hs].
  apply andb_true_iff. auto.
Qed.

Lemma digit_set_matches a :
  set_matches false [CDigit true] a = true -> Str.is_digit a = true.
Proof.
  unfold set_matches. simpl. destruct (Str.is_digit a); auto.
Qed.

Lemma lang_ML_group w : lang ML_group w -> is_ML_key w.
Proof.
  unfold ML_group. simpl. intros H.
  repeat match goal with
         | H : lang (RSeq _ _) _ |- _ => inversion H; subst; clear H
         | H : lang (RChar _) _ |- _ => inversion H; subst; clear H
         | H : lang REmpty _ |- _ => inversion H; subst; clear H
         | H : lang (RPlus _ _) _ |- _ => inversion H; subst; clear H
         | H : lang (RSet _ _) _ |- _ => inversion H; subst; clear H
         end.
  match goal with
  | H : lang (RStar _ _) ?w |- _ =>
      apply lang_star_set in H;
      apply (forallb_impl _ Str.is_digit _ digit_set_matches) in H
  end.
  match goal with
  | H : set_matches _ _ ?a = true |- _ => apply digit_set_matches in H
  end.
  eexists _, _. simpl. rewrite append_nil_r. repeat split; eauto.
Qed.

Lemma default_pattern_captures branch m p :
  JS.match_ branch (commitMessagePrefixPattern defaultConfig) = Some m ->
  JS.group 1 m = Some p ->
  is_ML_key p.
Proof.
  intros Hm Hp.
  pose (P := fun (i : nat) (w : string) => i = 1 -> is_ML_key w).
  assert (HP : respects P (commitMessagePrefixPattern defaultConfig)).
  { simpl. repeat split; auto. intros w Hw _. now apply lang_ML_group. }
  destruct (@exec_sound P _ HP _ _ Hm) as (_ & _ & Hg).
  now apply (Hg 0 p Hp).
Qed.

(** Every match is a match at some start index. *)
Lemma execFrom_matchAt r n s : forall idx m,
  execFrom r n idx s = Some m ->
  exists idx' s', matchAt r n idx' s' = Some m.
Proof.
  induction s as [| a s IH]; intros idx m; simpl.
  - destruct (matchAt r n idx "") eqn:Hm; [| discriminate].
    intros [= ->]. eauto.
  - destruct (matchAt r n idx (String a s)) eqn:Hm.
    + intros [= ->]. eauto.
    + apply IH.
Qed.

(** Under the default pattern a matching branch always yields a prefix. *)
Lemma default_pattern_group branch m :
  JS.match_ branch (commitMessagePrefixPattern defaultConfig) = Some m ->
  exists p, JS.group 1 m = Some p.
Proof.
  intros Hm. apply execFrom_matchAt in Hm.
  destruct Hm as (idx & s & Hm). unfold matchAt in Hm.
  change (commitMessagePrefixPattern defaultConfig)
    with (RSeq (RGroup 1 ML_group) ML_tail) in Hm.
  cbn [rmatch] in Hm.
  pose (P := fun (_ : nat) (_ : string) => True).
  eapply (rmatch_sound _ _ P) in Hm;
    [| simpl; tauto | apply captures_in_none].
  destruct Hm as (w1 & s1 & c1 & -> & _ & _ & _ & Hm).
  eapply (rmatch_sound _ _ P) in Hm; [| simpl; tauto | intros i w _; exact I].
  destruct Hm as (w2 & s2 & c2 & -> & _ & _ & Ho & [= <-]).
  exists w1. simpl. rewrite Ho by (simpl; tauto).
  unfold set_capture. simpl. now rewrite consumed_append.
Qed.

(** ** Plain prefixes: the pattern of the fast path *)

Lemma plain_char_no_dollar a :
  plain_char a = true -> negb (Ascii.eqb a "$") = true.
Proof.
  intros H. destruct (Ascii.eqb a "$") eqn:E; [| reflexivity].
  apply Ascii.eqb_eq in E. subst a. discriminate H.
Qed.

Lemma plain_no_dollar p : plain p = true -> no_dollar p = true.
Proof. apply forallb_impl. exact plain_char_no_dollar. Qed.

Ltac not_special H :=
  repeat match goal with
         | |- context [Parser.chr ?c ?a] =>
             let E := fresh "E" in
             destruct (Parser.chr c a) eqn:E;
             [apply Ascii.eqb_eq in E; subst a; discriminate H |]
         end.

Lemma step_plain st a :
  Parser.p_mode st = Parser.MNormal ->
  plain_char a = true ->
  Parser.step st a = Ok (Parser.push_term (Parser.KAtom, RChar a) st).
Proof.
  intros Hmode H. unfold Parser.step. rewrite Hmode.
  unfold Parser.step_normal. not_special H. reflexivity.
Qed.

Lemma run_plain p : forall cur stack next rest,
  plain p = true ->
  Parser.run (Parser.mkState Parser.MNormal cur stack next) (p ++ rest)
  = Parser.run
      (Parser.mkState Parser.MNormal
         (Parser.mkFrame (Parser.f_alts cur)
            (push_chars p (Parser.f_terms cur)))
         stack next)
      rest.
Proof.
  induction p as [| a p IH]; intros cur stack next rest Hp.
  - destruct cur. reflexivity.
  - simpl in Hp. apply andb_true_iff in Hp. destruct Hp as [Ha Hp].
    change ((String a p ++ rest)%string) with (String a (p ++ rest)).
    cbn [Parser.run]. rewrite step_plain by auto.
    cbn [bind]. unfold Parser.push_term. cbn [Parser.p_cur Parser.p_stack
      Parser.p_next]. rewrite IH by assumption. reflexivity.
Qed.

Lemma seq_of_push_chars p : forall ts acc,
  fold_left (fun acc t => RSeq (snd t) acc) (push_chars p ts) acc
  = fold_left (fun acc t => RSeq (snd t) acc) ts (chars p acc).
Proof.
  induction p as [| a p IH]; intros ts acc; simpl; [reflexivity |].
  now rewrite IH.
Qed.

Lemma run_app a : forall st b,
  Parser.run st (a ++ b) = (st' <- Parser.run st a ;; Parser.run st' b).
Proof.
  induction a as [| x a IH]; intros st b; simpl; [reflexivity |].
  destruct (Parser.step st x); simpl; auto.
Qed.

Lemma run_prefix_tail ts :
  Parser.run
    (Parser.mkState Parser.MNormal (Parser.mkFrame [] ts) [] 1) "\]\s"
  = Ok (Parser.mkState Parser.MNormal
          (Parser.mkFrame []
             ((Parser.KAtom, RSet false [CSpace true])
                :: (Parser.KAtom, RChar "]") :: ts))
          [] 1).
Proof. reflexivity. Qed.

Lemma new_RegExp_prefix p :
  plain p = true ->
  new_RegExp ("^\[" ++ p ++ "\]\s") = Ok (prefixRegexOf p).
Proof.
  intros Hp. unfold new_RegExp, Parser.parse.
  rewrite run_app.
  change (Parser.run Parser.initial "^\[")
    with (Ok (Parser.mkState Parser.MNormal
                (Parser.mkFrame []
                   [(Parser.KAtom, RChar "["); (Parser.KAssertion, RBol)])
                [] 1)).
  cbn [bind]. rewrite run_plain by assumption.
  cbn [Parser.f_alts Parser.f_terms]. rewrite run_prefix_tail.
  cbn [bind]. unfold Parser.finish, Parser.frame_regex, Parser.seq_of_terms.
  cbn [Parser.p_mode Parser.p_stack Parser.p_cur Parser.f_alts
       Parser.f_terms fold_left snd].
  rewrite seq_of_push_chars. reflexivity.
Qed.


Lemma rmatch_chars n (A : Type) p : forall tail s c (k : cont A),
  rmatch n (chars p tail) (p ++ s) c k = rmatch n tail s c k.
Proof.
  induction p as [| a p IH]; intros tail s c k; simpl; [reflexivity |].
  rewrite Ascii.eqb_refl. apply IH.
Qed.

(** The pattern of the fast path accepts every message that begins with
    [[p]] and a space. *)
Lemma test_prefixRegex p rest :
  JS.test (prefixRegexOf p) ("[" ++ p ++ "] " ++ rest) = true.
Proof.
  unfold JS.test, exec.
  change ("[" ++ p ++ "] " ++ rest)%string
    with (String "[" (p ++ String "]" (String " " rest))).
  cbn [execFrom]. unfold matchAt at 1, prefixRegexOf.
  cbn [rmatch]. rewrite Nat.eqb_refl.
  cbn [matchChar]. rewrite Ascii.eqb_refl.
  rewrite rmatch_chars. reflexivity.
Qed.

(** ** Rendering the format *)

Lemma getSubstitution_no_dollar matched before after caps t :
  no_dollar t = true ->
  JS.getSubstitution matched before after caps t = t.
Proof.
  induction t as [| a t IH]; simpl; [reflexivity |].
  intros H. apply andb_true_iff in H. destruct H as [Ha Ht].
  rewrite Ha. now rewrite IH.
Qed.

Lemma splitFirst_skip pat p : forall rest,
  no_dollar p = true ->
  Str.splitFirst (String "$" pat) (p ++ rest)
  = match Str.splitFirst (String "$" pat) rest with
    | Some (b, r) => Some (p ++ b, r)
    | None => None
    end.
Proof.
  induction p as [| a p IH]; intros rest Hp.
  - simpl (("" ++ rest)%string).
    destruct (Str.splitFirst (String "$" pat) rest) as [[b r] |]; reflexivity.
  - simpl in Hp. apply andb_true_iff in Hp. destruct Hp as [Ha Hp].
    change ((String a p ++ rest)%string) with (String a (p ++ rest)).
    cbn [Str.splitFirst Str.startsWith].
    rewrite Ascii.eqb_sym. apply negb_true_iff in Ha. rewrite Ha.
    cbn [andb]. rewrite IH by assumption.
    destruct (Str.splitFirst (String "$" pat) rest) as [[b r] |]; reflexivity.
Qed.

Lemma render_default p w :
  no_dollar p = true ->
  JS.replaceString
    (JS.replaceString "[${prefix}] ${message}" "${prefix}" p)
    "${message}" w
  = "[" ++ p ++ "] "
      ++ JS.getSubstitution "${message}" ("[" ++ p ++ "] ") "" [] w.
Proof.
  intros Hp.
  assert (H1 : JS.replaceString "[${prefix}] ${message}" "${prefix}" p
               = String "[" (p ++ "] ${message}")).
  { unfold JS.replaceString.
    change (Str.splitFirst "${prefix}" "[${prefix}] ${message}")
      with (Some ("[", "] ${message}")).
    cbv iota beta. now rewrite getSubstitution_no_dollar. }
  rewrite H1. unfold JS.replaceString.
  cbn [Str.splitFirst Str.startsWith]. 
  change (Ascii.eqb "$" "[") with false. cbn [andb].
  rewrite splitFirst_skip by assumption.
  change (Str.splitFirst "${message}" "] ${message}")
    with (Some ("] ", "")).
  cbv iota beta. rewrite append_nil_r. simpl. now rewrite append_assoc.
Qed.

Lemma ML_key_plain p : is_ML_key p -> plain p = true.
Proof.
  intros (d & ds & -> & Hd & Hds). unfold plain. simpl.
  assert (Hdig : forall a, Str.is_digit a = true -> plain_char a = true).
  { intros a Ha. unfold plain_char, Str.is_word. rewrite Ha.
    now rewrite !orb_true_r. }
  rewrite (Hdig d Hd). simpl.
  apply (forallb_impl Str.is_digit plain_char ds Hdig Hds).
Qed.

(** ** [getCommitMessage] with the default format *)

Lemma plain_undefined v :
  (forall p, v = Some p -> plain p = true) -> plain (JS.toString v) = true.
Proof. destruct v as [p |]; simpl; auto. Qed.

(** With the format [[${prefix}] ${message}] and a prefix of plain
    characters, the result is the current message on the fast path, and the
    bracketed prefix, a space and a text otherwise. *)
Lemma getCommitMessage_bracket_format config branch msg :
  commitMessageFormat config = "[${prefix}] ${message}" ->
  match JS.match_ branch (commitMessagePrefixPattern config) with
  | None => getCommitMessage branch msg config = Ok msg
  | Some m =>
      plain (JS.toString (JS.group 1 m)) = true ->
      getCommitMessage branch msg config
      = Ok (if JS.test (prefixRegexOf (JS.toString (JS.group 1 m))) msg
            then msg
            else "[" ++ JS.toString (JS.group 1 m) ++ "] "
                   ++ JS.getSubstitution "${message}"
                        ("[" ++ JS.toString (JS.group 1 m) ++ "] ") "" []
                        (Str.trim
                           (JS.replace msg (outdatedPrefixPattern config) "")))
  end.
Proof.
  intros Hformat. unfold getCommitMessage, JS.test, JS.match_.
  destruct (exec (commitMessagePrefixPattern config) branch) as [m |];
    [| reflexivity].
  cbn [negb]. intros Hplain.
  rewrite new_RegExp_prefix by assumption. cbn [bind].
  destruct (exec (prefixRegexOf (JS.toString (JS.group 1 m))) msg);
    [reflexivity |].
  rewrite Hformat, render_default by now apply plain_no_dollar.
  reflexivity.
Qed.


(** ** [getCommitMessage] under the default configuration *)

Lemma default_pattern_plain branch m p :
  JS.match_ branch (commitMessagePrefixPattern defaultConfig) = Some m ->
  JS.group 1 m = Some p -> plain p = true.
Proof.
  intros Hm Hp. apply ML_key_plain. exact (default_pattern_captures _ _ _ Hm Hp).
Qed.

(** * The claims *)

Lemma getExtensionConfig_default :
  getExtensionConfig defaultSettings = Ok defaultConfig.
Proof. reflexivity. Qed.


Lemma getExtensionConfig_noGroup :
  getExtensionConfig noGroupSettings = Ok noGroupConfig.
Proof. reflexivity. Qed.

Lemma getExtensionConfig_optionalGroup :
  getExtensionConfig optionalGroupSettings = Ok optionalGroupConfig.
Proof. reflexivity. Qed.

Lemma literals_parse :
  new_RegExp "\(([^)]+)\)" = Ok groupLiteral
  /\ new_RegExp "[\[\]]" = Ok bracketLiteral
  /\ new_RegExp "\$" = Ok dollarLiteral.
Proof. repeat split. Qed.

Lemma getExtensionConfig_by : getExtensionConfig bySettings = Ok byConfig.
Proof. reflexivity. Qed.

Lemma getExtensionConfig_messageFirst :
  getExtensionConfig messageFirstSettings = Ok messageFirstConfig.
Proof. reflexivity. Qed.

Lemma getExtensionConfig_any : getExtensionConfig anySettings = Ok anyConfig.
Proof. reflexivity. Qed.

(** C1: on branch [ML-42-x] with the current message [[ML-7] Old work] and
    the default configuration, [getCommitMessage] replaces the match of the
    outdated-prefix pattern by the empty text, not by its message group: the
    result is [[ML-42] ] and the words [Old work] are lost.  The helper
    [extractCurrentMessage] keeps them on the same input. *)
Theorem getCommitMessage_stale_prefix :
  getCommitMessage "ML-42-x" "[ML-7] Old work" defaultConfig = Ok "[ML-42] "
  /\ JS.replace "[ML-7] Old work" (outdatedPrefixPattern defaultConfig) ""
     = ""
  /\ extractCurrentMessage (repoOn "ML-42-x" "[ML-7] Old work") defaultConfig
     = "Old work".
Proof. repeat split; vm_compute; reflexivity. Qed.




(** C8: with the default configuration, branch [ML-42-fix-bug] and message
    [Fix the bug] give [[ML-42] Fix the bug]; a message that begins with
    [[prefix]] and a space, for the prefix of the branch, is returned as it
    is; so the first result is returned unchanged by a second run. *)
Theorem getCommitMessage_fast_path branch m p rest :
  JS.match_ branch (commitMessagePrefixPattern defaultConfig) = Some m ->
  JS.group 1 m = Some p ->
  getCommitMessage "ML-42-fix-bug" "Fix the bug" defaultConfig
  = Ok "[ML-42] Fix the bug"
  /\ getCommitMessage branch ("[" ++ p ++ "] " ++ rest) defaultConfig
     = Ok ("[" ++ p ++ "] " ++ rest)
  /\ getCommitMessage "ML-42-fix-bug" "[ML-42] Fix the bug" defaultConfig
     = Ok "[ML-42] Fix the bug".
Proof.
  intros Hm Hp. split; [reflexivity |]. split; [| reflexivity].
  pose proof (getCommitMessage_bracket_format defaultConfig branch
                ("[" ++ p ++ "] " ++ rest) eq_refl) as H.
  rewrite Hm, Hp in H. cbn [JS.toString] in H.
  rewrite H by exact (default_pattern_plain _ _ _ Hm Hp).
  now rewrite test_prefixRegex.
Qed.

Lemma getCommitMessage_fast_path_witness :
  JS.match_ "ML-7-y" (commitMessagePrefixPattern defaultConfig)
  = Some (mkMatch 0 "ML-7-y" "" [Some "ML-7"])
  /\ JS.group 1 (mkMatch 0 "ML-7-y" "" [Some "ML-7"]) = Some "ML-7"
  /\ getCommitMessage "ML-7-y" "[ML-7] Old work" defaultConfig
     = Ok "[ML-7] Old work".
Proof.
  split; [reflexivity |]. split; [reflexivity |].
  apply (getCommitMessage_fast_path "ML-7-y"
           (mkMatch 0 "ML-7-y" "" [Some "ML-7"]) "ML-7" "Old work");
    reflexivity.
Defined.

(** The methods that log and register listeners leave the repository and
    the configuration of the watcher as they are. *)
Lemma dispose_repo w : repo (dispose w) = repo w.
Proof.
  unfold dispose. destruct (gitHeadWatcher w); cbn;
    destruct (refWatcher w); reflexivity.
Qed.

Lemma dispose_config w : config (dispose w) = config w.
Proof.
  unfold dispose. destruct (gitHeadWatcher w); cbn;
    destruct (refWatcher w); reflexivity.
Qed.

Lemma setupWatchers_repo w : repo (setupWatchers w) = repo w.
Proof. reflexivity. Qed.

Lemma setupWatchers_config w : config (setupWatchers w) = config w.
Proof. reflexivity. Qed.

Lemma safeUpdate_repo w currentMessage :
  repo (safeUpdateCommitMessage w currentMessage)
  = match updateCommitMessage (repo w) (config w) currentMessage with
    | Ok r => r
    | Throw _ => repo w
    end.
Proof.
  unfold safeUpdateCommitMessage.
  destruct (updateCommitMessage (repo w) (config w) currentMessage);
    reflexivity.
Qed.

Lemma safeUpdate_config w currentMessage :
  config (safeUpdateCommitMessage w currentMessage) = config w.
Proof.
  unfold safeUpdateCommitMessage.
  destruct (updateCommitMessage (repo w) (config w) currentMessage);
    reflexivity.
Qed.


(** C4: with the pattern [ML-\d+-.*], which has no capturing group, branch
    [ML-42-x] matches without a first group, and [getCommitMessage] does not
    return the current message [Fix]: it renders the format with the text
    [undefined] as the prefix.  The same happens with the pattern
    [(ML-\d+)?-.*] on branch [feature-x], where the only group takes no part
    in the match. *)
Theorem getCommitMessage_no_group :
  JS.test (commitMessagePrefixPattern noGroupConfig) "ML-42-x" = true
  /\ (forall m,
        JS.match_ "ML-42-x" (commitMessagePrefixPattern noGroupConfig) = Some m
        -> JS.group 1 m = None)
  /\ getCommitMessage "ML-42-x" "Fix" noGroupConfig = Ok "[undefined] Fix"
  /\ JS.match_ "feature-x" (commitMessagePrefixPattern optionalGroupConfig)
     = Some (mkMatch 7 "-x" "" [None])
  /\ getCommitMessage "feature-x" "Fix" optionalGroupConfig
     = Ok "[undefined] Fix".
Proof.
  split; [reflexivity |]. split; [| repeat split].
  intros m. vm_compute. intros [= <-]. reflexivity.
Qed.

Lemma getCommitMessage_no_group_witness :
  JS.match_ "ML-42-x" (commitMessagePrefixPattern noGroupConfig)
  = Some (mkMatch 0 "ML-42-x" "" [])
  /\ JS.group 1 (mkMatch 0 "ML-42-x" "" []) = None.
Proof.
  split; [reflexivity |].
  apply (proj1 (proj2 getCommitMessage_no_group)). reflexivity.
Defined.

(** C6: when no branch is checked out the synchronization pass changes
    nothing, whatever the message and the configuration: the repository
    comes back as it was, so its input box has the same value and no new
    assignment. *)
Theorem updateCommitMessage_no_branch repo config currentMessage :
  branchOf repo = "" ->
  updateCommitMessage repo config currentMessage = Ok repo.
Proof.
  intros H. unfold updateCommitMessage. now rewrite H.
Qed.

Lemma updateCommitMessage_no_branch_witness :
  branchOf (detachedRepo "[ML-7] Old work") = ""
  /\ updateCommitMessage (detachedRepo "[ML-7] Old work") defaultConfig None
     = Ok (detachedRepo "[ML-7] Old work").
Proof.
  split; [reflexivity |].
  apply (updateCommitMessage_no_branch (detachedRepo "[ML-7] Old work")
           defaultConfig None).
  reflexivity.
Defined.

(** C7: for a branch that the prefix pattern does not match,
    [getCommitMessage] returns the current message as it is. *)
Theorem getCommitMessage_non_matching branch currentMessage config :
  JS.test (commitMessagePrefixPattern config) branch = false ->
  getCommitMessage branch currentMessage config = Ok currentMessage.
Proof.
  intros H. unfold getCommitMessage. now rewrite H.
Qed.

Lemma getCommitMessage_non_matching_witness :
  JS.test (commitMessagePrefixPattern defaultConfig) "main" = false
  /\ getCommitMessage "main" "[ML-7] Old work" defaultConfig
     = Ok "[ML-7] Old work".
Proof.
  split; [reflexivity |].
  apply (getCommitMessage_non_matching "main" "[ML-7] Old work" defaultConfig).
  reflexivity.
Defined.

(** The command handles each repository on its own: its result for a
    repository is the result of the pass on that repository, or the
    repository as it was when the pass failed, and the command appends one
    line per repository. *)
Lemma updateMessageCommand_each config repositories : forall channel,
  fst (updateMessageCommand config repositories channel)
  = map (fun r => match updateCommitMessage r config None with
                  | Ok r' => r'
                  | Throw _ => r
                  end) repositories
  /\ List.length (snd (updateMessageCommand config repositories channel))
     = List.length channel + List.length repositories.
Proof.
  induction repositories as [| r rest IH]; intros channel; simpl.
  - auto.
  - unfold commandStep.
    destruct (updateCommitMessage r config None) as [r' | e];
      match goal with
      | |- context [updateMessageCommand config rest ?ch] =>
          destruct (IH ch) as [IH1 IH2];
          destruct (updateMessageCommand config rest ch) as [rest' ch']
      end;
      simpl in *; rewrite IH1, IH2; unfold appendLine;
      rewrite length_app; simpl; split; auto; lia.
Qed.

(** C9: a pass that throws inside [safeUpdateCommitMessage] is caught and
    logged: the watcher keeps its repository, its configuration and its
    listeners and gets one more log line, so the next pass runs as it would
    have run without the failure.  The command catches inside its loop: each
    repository gets the result of its own pass, whatever the other passes
    did, as on a list whose first repository fails and whose second one is
    updated. *)
Theorem safeUpdateCommitMessage_catches w currentMessage error :
  updateCommitMessage (repo w) (config w) currentMessage = Throw error ->
  safeUpdateCommitMessage w currentMessage
  = mkWatcher (repo w) (config w) (gitHeadWatcher w) (refWatcher w)
      (watchedFiles w)
      (outputChannel w
         ++ [LOG_PREFIX ++ " [RepositoryWatcher] "
               ++ "Error updating commit message: " ++ error_message error])
  /\ (forall next,
        repo (safeUpdateCommitMessage
                (safeUpdateCommitMessage w currentMessage) next)
        = repo (safeUpdateCommitMessage w next))
  /\ (forall config repositories channel,
        fst (updateMessageCommand config repositories channel)
        = map (fun r => match updateCommitMessage r config None with
                        | Ok r' => r'
                        | Throw _ => r
                        end) repositories)
  /\ updateCommitMessage (repoOn "a(-x" "Fix") anyConfig None
     = Throw (SyntaxError "Invalid regular expression: /^\[a(\]\s/: Unterminated group")
  /\ updateMessageCommand anyConfig
       [repoOn "a(-x" "Fix"; repoOn "ML-42-x" "Fix"] []
     = ([repoOn "a(-x" "Fix";
         mkRepo "/work" (Some (mkBranch (Some "ML-42-x"))) "[ML-42] Fix"
           ["[ML-42] Fix"]],
        ["[Jira Commit Message] Error executing update command: Invalid regular expression: /^\[a(\]\s/: Unterminated group";
         "[Jira Commit Message] Commit message updated via command."]).
Proof.
  intros H. split; [| split; [| split; [| split]]].
  - unfold safeUpdateCommitMessage. rewrite H. reflexivity.
  - intros next. rewrite !safeUpdate_repo, safeUpdate_config.
    rewrite H. reflexivity.
  - intros c rs ch. apply updateMessageCommand_each.
  - reflexivity.
  - reflexivity.
Qed.

Lemma safeUpdateCommitMessage_catches_witness :
  updateCommitMessage (repo (watcherOf (repoOn "a(-x" "Fix") anyConfig))
    (config (watcherOf (repoOn "a(-x" "Fix") anyConfig)) None
  = Throw (SyntaxError "Invalid regular expression: /^\[a(\]\s/: Unterminated group")
  /\ safeUpdateCommitMessage (watcherOf (repoOn "a(-x" "Fix") anyConfig) None
     = mkWatcher (repoOn "a(-x" "Fix") anyConfig true None
         ["/work/.git/HEAD"]
         ["[Jira Commit Message] [RepositoryWatcher] Error updating commit message: Invalid regular expression: /^\[a(\]\s/: Unterminated group"].
Proof.
  split; [reflexivity |].
  apply (safeUpdateCommitMessage_catches
           (watcherOf (repoOn "a(-x" "Fix") anyConfig) None
           (SyntaxError "Invalid regular expression: /^\[a(\]\s/: Unterminated group")).
  reflexivity.
Defined.

(** ** The stripping helper *)

Lemma group_length i m p :
  JS.group (S i) m = Some p -> S i <= List.length (m_groups m).
Proof.
  simpl. intros H.
  destruct (Nat.lt_ge_cases i (List.length (m_groups m))) as [Hlt | Hge];
    [exact Hlt |].
  rewrite nth_overflow in H by assumption. discriminate H.
Qed.

Lemma extractCurrentMessage_match repo config m :
  JS.match_ (inputBox_value repo) (outdatedPrefixPattern config) = Some m ->
  2 <= List.length (m_groups m) ->
  extractCurrentMessage repo config
  = Str.take (m_index m) (inputBox_value repo)
      ++ JS.capture_text (m_groups m) 2 ++ m_after m.
Proof.
  intros Hm Hlen. unfold extractCurrentMessage, JS.replace.
  unfold JS.match_ in Hm. rewrite Hm.
  change (JS.getSubstitution (m_matched m)
            (Str.take (m_index m) (inputBox_value repo)) (m_after m)
            (m_groups m) "$2")
    with (if JS.valid_index (m_groups m) 2
          then (JS.capture_text (m_groups m) 2 ++ "")%string
          else "$2").
  unfold JS.valid_index. apply Nat.leb_le in Hlen. rewrite Hlen.
  cbn [Nat.leb andb]. now rewrite append_nil_r.
Qed.

(** C10: [extractCurrentMessage] returns the input box as it is when the
    outdated-prefix pattern does not match it, and otherwise puts group 2 in
    the place of the match.  With the default format group 2 is the message
    ([[ML-7] Old work] gives [Old work]); with the format
    [${message} [${prefix}]] group 2 is the prefix group, an issue key
    ([Old work [ML-7]] gives [ML-7]). *)
Theorem extractCurrentMessage_second_group :
  (forall repo config,
      JS.test (outdatedPrefixPattern config) (inputBox_value repo) = false ->
      extractCurrentMessage repo config = inputBox_value repo)
  /\ (forall repo config m,
        JS.match_ (inputBox_value repo) (outdatedPrefixPattern config)
        = Some m ->
        2 <= List.length (m_groups m) ->
        extractCurrentMessage repo config
        = Str.take (m_index m) (inputBox_value repo)
            ++ JS.capture_text (m_groups m) 2 ++ m_after m)
  /\ outdatedPrefixSource "(ML-\d+)-.*" "[${prefix}] ${message}"
     = "\[(ML-\d+)\] (.*)"
  /\ extractCurrentMessage (repoOn "ML-42-x" "[ML-7] Old work") defaultConfig
     = "Old work"
  /\ outdatedPrefixSource "(ML-\d+)-.*" "${message} [${prefix}]"
     = "(.*) \[(ML-\d+)\]"
  /\ extractCurrentMessage (repoOn "ML-42-x" "Old work [ML-7]")
       messageFirstConfig
     = "ML-7"
  /\ (forall repo m p,
        JS.match_ (inputBox_value repo)
          (outdatedPrefixPattern messageFirstConfig) = Some m ->
        JS.group 2 m = Some p ->
        is_ML_key p
        /\ extractCurrentMessage repo messageFirstConfig
           = Str.take (m_index m) (inputBox_value repo) ++ p ++ m_after m).
Proof.
  split; [| split; [| repeat (split; [reflexivity |])]].
  - intros repo config H. unfold extractCurrentMessage, JS.replace.
    unfold JS.test in H.
    destruct (exec (outdatedPrefixPattern config) (inputBox_value repo));
      [discriminate | reflexivity].
  - exact extractCurrentMessage_match.
  - intros repo m p Hm Hp. split.
    + pose (P := fun (i : nat) (w : string) => i = 2 -> is_ML_key w).
      assert (HP : respects P (outdatedPrefixPattern messageFirstConfig)).
      { simpl. repeat split; auto.
        - intros w _ [=].
        - intros w Hw _. now apply lang_ML_group. }
      destruct (@exec_sound P _ HP _ _ Hm) as (_ & _ & Hg).
      now apply (Hg 1 p Hp).
    + rewrite (extractCurrentMessage_match _ _ _ Hm (group_length _ _ _ Hp)).
      unfold JS.capture_text. simpl in Hp. simpl. now rewrite Hp.
Qed.

Lemma extractCurrentMessage_second_group_witness :
  JS.test (outdatedPrefixPattern defaultConfig)
    (inputBox_value (repoOn "main" "Fix the bug")) = false
  /\ extractCurrentMessage (repoOn "main" "Fix the bug") defaultConfig
     = "Fix the bug".
Proof.
  split; [reflexivity |].
  apply (proj1 extractCurrentMessage_second_group
           (repoOn "main" "Fix the bug") defaultConfig).
  reflexivity.
Defined.

(** ** The pattern literals of [getExtensionConfig] *)

Lemma take_drop_while p s : s = Str.takeWhile p s ++ Str.dropWhile p s.
Proof.
  induction s as [| a s IH]; simpl; [reflexivity |].
  destruct (p a); simpl; congruence.
Qed.

Lemma dropWhile_head p s x rest :
  Str.dropWhile p s = String x rest -> p x = false.
Proof.
  induction s as [| a s IH]; simpl; [discriminate |].
  destruct (p a) eqn:Ha; [exact IH |].
  intros [= -> _]. exact Ha.
Qed.



(** A greedy star over a class of characters, before a continuation that
    fails on the characters of the class, takes them all. *)
Lemma repeatStar_class (A : Type) (p : ascii -> bool) (k : cont A) :
  (forall a s c, p a = true -> k (String a s) c = None) ->
  forall fuel s c,
    length s < fuel ->
    repeatStar (matchChar p) [] true fuel s c k = k (Str.dropWhile p s) c.
Proof.
  intros Hk fuel. induction fuel as [| fuel IH]; intros s c Hlen; [lia |].
  cbn [repeatStar].
  change (clear_captures [] c) with c.
  destruct s as [| a s]; [reflexivity |].
  cbn [matchChar Str.dropWhile]. destruct (p a) eqn:Ha; [| reflexivity].
  replace (length s =? length (String a s)) with false
    by (symmetry; apply Nat.eqb_neq; simpl; lia).
  simpl in Hlen. rewrite IH by lia.
  destruct (k (Str.dropWhile p s) c) eqn:Hd; [reflexivity |].
  now apply Hk.
Qed.

Lemma not_close_set a : set_matches true [CChar ")"] a = not_close a.
Proof.
  unfold set_matches, not_close. simpl. now rewrite orb_false_r.
Qed.

(** What [/\(([^)]+)\)/] matches at the head of a text. *)
Lemma matchAt_groupLiteral n idx s :
  matchAt groupLiteral n idx s
  = match s with
    | "" => None
    | String a s' =>
        if Ascii.eqb "(" a then
          match Str.takeWhile not_close s', Str.dropWhile not_close s' with
          | String b w, String _ rest =>
              Some (mkMatch idx (Str.consumed s rest) rest [Some (String b w)])
          | _, _ => None
          end
        else None
    end.
Proof.
  unfold matchAt, groupLiteral. cbn [rmatch].
  destruct s as [| a s1]; [reflexivity |].
  cbn [matchChar]. destruct (Ascii.eqb "(" a); [| reflexivity].
  change (clear_captures [] no_captures) with no_captures.
  destruct s1 as [| b s2]; [reflexivity |].
  cbn [matchChar Str.takeWhile Str.dropWhile].
  rewrite not_close_set. destruct (not_close b) eqn:Hb; [| reflexivity].
  rewrite repeatStar_class; [| | simpl; lia].
  - pose proof (take_drop_while not_close s2) as Hsplit.
    replace (Str.dropWhile (set_matches true [CChar ")"]) s2)
      with (Str.dropWhile not_close s2)
      by (clear; induction s2 as [| x s2 IH]; cbn [Str.dropWhile];
          [| rewrite not_close_set, IH]; reflexivity).
    destruct (Str.dropWhile not_close s2) as [| x rest] eqn:Hdrop.
    + reflexivity.
    + apply dropWhile_head in Hdrop.
      unfold not_close in Hdrop. apply negb_false_iff in Hdrop.
      apply Ascii.eqb_eq in Hdrop. subst x.
      cbn [matchChar]. rewrite Ascii.eqb_refl.
      unfold set_capture. cbn [ngroups groups_in fold_right app Nat.max seq
        map Nat.eqb].
      rewrite Hsplit at 2.
      change (String b (Str.takeWhile not_close s2 ++ String ")" rest))
        with (String b (Str.takeWhile not_close s2) ++ String ")" rest)%string.
      rewrite consumed_append. reflexivity.
  - intros x s c Hx. rewrite not_close_set in Hx.
    cbn [matchChar]. unfold not_close in Hx. apply negb_true_iff in Hx.
    rewrite Ascii.eqb_sym. now rewrite Hx.
Qed.

Lemma execFrom_groupLiteral n s : forall idx,
  match execFrom groupLiteral n idx s with
  | Some m => JS.group 1 m = firstGroupText s /\ firstGroupText s <> None
  | None => firstGroupText s = None
  end.
Proof.
  induction s as [| a s IH]; intros idx.
  - reflexivity.
  - cbn [execFrom]. rewrite matchAt_groupLiteral. cbn [firstGroupText].
    destruct (Ascii.eqb "(" a); [| apply IH].
    destruct (Str.takeWhile not_close s) as [| b w]; [apply IH |].
    destruct (Str.dropWhile not_close s) as [| x rest]; [apply IH |].
    simpl. split; [reflexivity | discriminate].
Qed.

Lemma prefixPatternOf_spec tagPattern :
  prefixPatternOf tagPattern = get (firstGroupText tagPattern) tagPattern.
Proof.
  unfold prefixPatternOf, JS.match_, exec.
  pose proof (execFrom_groupLiteral (length tagPattern) tagPattern 0) as H.
  destruct (execFrom groupLiteral (length tagPattern) 0 tagPattern) as [m |].
  - destruct H as [H1 H2]. rewrite H1.
    destruct (firstGroupText tagPattern); [reflexivity | contradiction].
  - now rewrite H.
Qed.

(** A global replacement by a pattern of one character. *)
Section OneCharacter.

Variable r : regex.
Variable q : ascii -> bool.
Variable template : string.

Hypothesis matchAt_r : forall n idx s,
  matchAt r n idx s
  = match s with
    | String a s' =>
        if q a then Some (mkMatch idx (String a "") s' []) else None
    | "" => None
    end.

Hypothesis template_r : forall a before after,
  q a = true ->
  JS.getSubstitution (String a "") before after [] template
  = String "\" (String a "").






End OneCharacter.













(** * Further properties of the extension *)

(** ** Patterns that begin with a bracket *)

Lemma matchAt_needs_char a r n idx s :
  match s with
  | String x _ => Ascii.eqb a x = false
  | "" => True
  end ->
  matchAt (RSeq (RChar a) r) n idx s = None.
Proof.
  unfold matchAt. cbn [rmatch].
  destruct s as [| x s]; [reflexivity |]. cbn [matchChar].
  now intros ->.
Qed.

Lemma execFrom_needs_char a r n s : forall idx,
  Str.forallb (fun x => negb (Ascii.eqb a x)) s = true ->
  execFrom (RSeq (RChar a) r) n idx s = None.
Proof.
  induction s as [| x s IH]; intros idx H; cbn [execFrom].
  - now rewrite matchAt_needs_char.
  - simpl in H. apply andb_true_iff in H. destruct H as [Hx Hs].
    apply negb_true_iff in Hx.
    rewrite matchAt_needs_char by exact Hx. now apply IH.
Qed.

Lemma execFrom_bol_needs_char a r n s : forall idx,
  Str.forallb (fun x => negb (Ascii.eqb a x)) s = true ->
  execFrom (RSeq RBol (RSeq (RChar a) r)) n idx s = None.
Proof.
  induction s as [| x s IH]; intros idx H; cbn [execFrom].
  - unfold matchAt. cbn [rmatch matchChar].
    destruct (length "" =? n); reflexivity.
  - simpl in H. apply andb_true_iff in H. destruct H as [Hx Hs].
    apply negb_true_iff in Hx.
    replace (matchAt (RSeq RBol (RSeq (RChar a) r)) n idx (String x s))
      with (@None MatchResult).
    + now apply IH.
    + unfold matchAt. cbn [rmatch matchChar]. rewrite Hx.
      destruct (length (String x s) =? n); reflexivity.
Qed.

Lemma no_bracket_forall t :
  no_bracket_dollar t = true ->
  Str.forallb (fun x => negb (Ascii.eqb "[" x)) t = true.
Proof.
  apply forallb_impl. intros a H. apply andb_true_iff in H. tauto.
Qed.

Lemma no_bracket_no_dollar t :
  no_bracket_dollar t = true -> no_dollar t = true.
Proof.
  apply forallb_impl. intros a H. apply andb_true_iff in H. tauto.
Qed.

(** ** What the default outdated-prefix pattern matches *)

Lemma dropWhile_append p w x r :
  Str.forallb p w = true -> p x = false ->
  Str.dropWhile p (w ++ String x r) = String x r.
Proof.
  intros Hw Hx. induction w as [| a w IH]; simpl.
  - now rewrite Hx.
  - simpl in Hw. apply andb_true_iff in Hw. destruct Hw as [Ha Hw].
    rewrite Ha. now apply IH.
Qed.

(** A greedy star over a class of characters hands the input after these
    characters to its continuation first. *)
Lemma repeatStar_class_reaches (A : Type) (p : ascii -> bool) (k : cont A) z :
  forall fuel s c,
    length s < fuel ->
    k (Str.dropWhile p s) c = Some z ->
    repeatStar (matchChar p) [] true fuel s c k = Some z.
Proof.
  induction fuel as [| fuel IH]; intros s c Hlen Hk; [lia |].
  cbn [repeatStar]. change (clear_captures [] c) with c.
  destruct s as [| a s]; [exact Hk |].
  cbn [matchChar]. cbn [Str.dropWhile] in Hk.
  destruct (p a); [| exact Hk].
  replace (length s =? length (String a s)) with false
    by (symmetry; apply Nat.eqb_neq; simpl; lia).
  simpl in Hlen. now rewrite IH by (auto; lia).
Qed.

Lemma digit_set_is_digit a :
  set_matches false [CDigit true] a = Str.is_digit a.
Proof.
  unfold set_matches. simpl. now destruct (Str.is_digit a).
Qed.

Lemma digit_not_bracket a : Str.is_digit a = true -> Ascii.eqb "]" a = false.
Proof.
  intros H. destruct (Ascii.eqb "]" a) eqn:E; [| reflexivity].
  apply Ascii.eqb_eq in E. subst a. discriminate H.
Qed.

Lemma matchAt_outdated_default n d ds t :
  Str.is_digit d = true ->
  Str.forallb Str.is_digit ds = true ->
  matchAt (outdatedPrefixPattern defaultConfig) n 0
    ("[" ++ ("ML-" ++ String d ds) ++ "] " ++ t)
  = Some (mkMatch 0
            ("[" ++ ("ML-" ++ String d ds) ++ "] "
               ++ Str.takeWhile not_line_terminator t)
            (Str.dropWhile not_line_terminator t)
            [Some ("ML-" ++ String d ds);
             Some (Str.takeWhile not_line_terminator t)]).
Proof.
  intros Hd Hds.
  change ("[" ++ ("ML-" ++ String d ds) ++ "] " ++ t)%string
    with (String "[" (String "M" (String "L" (String "-"
            (String d (ds ++ String "]" (String " " t))))))).
  unfold matchAt.
  change (outdatedPrefixPattern defaultConfig)
    with (RSeq (RChar "[")
            (RSeq (RGroup 1 ML_group)
               (RSeq (RChar "]")
                  (RSeq (RChar " ")
                     (RSeq (RGroup 2 (RSeq (RStar true RAny) REmpty))
                        REmpty))))).
  unfold ML_group. cbn [chars rmatch matchChar].
  rewrite !Ascii.eqb_refl, digit_set_is_digit, Hd.
  cbn [groups_in]. change (clear_captures [] no_captures) with no_captures.
  assert (Hset : Str.forallb (set_matches false [CDigit true]) ds = true).
  { revert Hds. apply forallb_impl. intros a. now rewrite digit_set_is_digit. }
  rewrite repeatStar_class; [| | lia].
  - rewrite dropWhile_append;
      [| exact Hset | rewrite digit_set_is_digit; reflexivity].
    cbn [matchChar]. rewrite !Ascii.eqb_refl.
    apply repeatStar_class_reaches; [lia |].
    f_equal. f_equal.
    + rewrite (take_drop_while not_line_terminator t) at 1.
      change (String "[" (String "M" (String "L" (String "-"
                (String d (ds ++ String "]" (String " "
                   (Str.takeWhile not_line_terminator t
                      ++ Str.dropWhile not_line_terminator t))))))))
        with (String "[" (("ML-" ++ String d ds)
                ++ String "]" (String " "
                     (Str.takeWhile not_line_terminator t
                        ++ Str.dropWhile not_line_terminator t)))).
      replace (String "[" (("ML-" ++ String d ds)
                 ++ String "]" (String " "
                      (Str.takeWhile not_line_terminator t
                         ++ Str.dropWhile not_line_terminator t))))
        with (("[" ++ ("ML-" ++ String d ds) ++ "] "
                 ++ Str.takeWhile not_line_terminator t)
                ++ Str.dropWhile not_line_terminator t)%string.
      * apply consumed_append.
      * simpl. rewrite !append_assoc. reflexivity.
    + cbn [ngroups groups_in fold_right app Nat.max seq map].
      unfold set_capture. cbn [Nat.eqb].
      f_equal; [| f_equal]; f_equal.
      * exact (consumed_append ("ML-" ++ String d ds)
                 (String "]" (String " " t))).
      * rewrite (take_drop_while not_line_terminator t) at 1.
        apply consumed_append.
  - intros a s c Ha. rewrite digit_set_is_digit in Ha.
    cbn [matchChar]. now rewrite digit_not_bracket.
Qed.

Lemma execFrom_here r n idx s m :
  matchAt r n idx s = Some m -> execFrom r n idx s = Some m.
Proof. intros H. destruct s; cbn [execFrom]; now rewrite H. Qed.

Lemma exec_outdated_default q t :
  is_ML_key q ->
  exec (outdatedPrefixPattern defaultConfig) ("[" ++ q ++ "] " ++ t)
  = Some (mkMatch 0
            ("[" ++ q ++ "] " ++ Str.takeWhile not_line_terminator t)
            (Str.dropWhile not_line_terminator t)
            [Some q; Some (Str.takeWhile not_line_terminator t)]).
Proof.
  intros (d & ds & -> & Hd & Hds). unfold exec.
  apply execFrom_here. now apply matchAt_outdated_default.
Qed.

(** ** A pass under the default configuration *)

Lemma extract_tagged repo q t :
  is_ML_key q ->
  inputBox_value repo = "[" ++ q ++ "] " ++ t ->
  extractCurrentMessage repo defaultConfig = t.
Proof.
  intros Hq Hv. unfold extractCurrentMessage, JS.replace.
  rewrite Hv, (exec_outdated_default q t Hq).
  cbn [m_index m_matched m_after m_groups Str.take].
  change (JS.getSubstitution
            ("[" ++ q ++ "] " ++ Str.takeWhile not_line_terminator t) ""
            (Str.dropWhile not_line_terminator t)
            [Some q; Some (Str.takeWhile not_line_terminator t)] "$2")
    with (Str.takeWhile not_line_terminator t ++ "")%string.
  rewrite append_nil_r. simpl. symmetry. apply take_drop_while.
Qed.

Lemma extract_no_bracket repo t :
  no_bracket_dollar t = true ->
  inputBox_value repo = t ->
  extractCurrentMessage repo defaultConfig = t.
Proof.
  intros Ht Hv. unfold extractCurrentMessage, JS.replace, exec. rewrite Hv.
  change (outdatedPrefixPattern defaultConfig)
    with (RSeq (RChar "[")
            (RSeq (RGroup 1 ML_group)
               (RSeq (RChar "]")
                  (RSeq (RChar " ")
                     (RSeq (RGroup 2 (RSeq (RStar true RAny) REmpty))
                        REmpty))))).
  now rewrite execFrom_needs_char by now apply no_bracket_forall.
Qed.

Lemma default_pattern_branch repo m :
  JS.match_ (branchOf repo) (commitMessagePrefixPattern defaultConfig) = Some m
  -> (branchOf repo =? "")%string = false.
Proof.
  intros Hm. destruct (String.eqb_spec (branchOf repo) ""); [| reflexivity].
  rewrite e in Hm. discriminate Hm.
Qed.

(** On a matching branch, when the extracted message is a trimmed text
    without brackets and dollar signs, the pass computes the tagged text. *)
Lemma pass_default repo m p t :
  JS.match_ (branchOf repo) (commitMessagePrefixPattern defaultConfig) = Some m
  -> JS.group 1 m = Some p ->
  extractCurrentMessage repo defaultConfig = t ->
  no_bracket_dollar t = true ->
  Str.trim t = t ->
  updateCommitMessage repo defaultConfig None
  = Ok (assignIfDifferent repo ("[" ++ p ++ "] " ++ t)).
Proof.
  intros Hm Hp Hext Ht Htrim. unfold updateCommitMessage.
  rewrite (default_pattern_branch repo m Hm), Hext.
  pose proof (getCommitMessage_bracket_format defaultConfig (branchOf repo) t
                eq_refl) as H.
  rewrite Hm, Hp in H. cbn [JS.toString] in H.
  rewrite H by exact (default_pattern_plain _ _ _ Hm Hp). clear H.
  assert (Hfast : JS.test (prefixRegexOf p) t = false).
  { unfold JS.test, exec, prefixRegexOf.
    now rewrite execFrom_bol_needs_char by now apply no_bracket_forall. }
  assert (Hstrip : JS.replace t (outdatedPrefixPattern defaultConfig) "" = t).
  { unfold JS.replace, exec.
    change (outdatedPrefixPattern defaultConfig)
      with (RSeq (RChar "[")
              (RSeq (RGroup 1 ML_group)
                 (RSeq (RChar "]")
                    (RSeq (RChar " ")
                       (RSeq (RGroup 2 (RSeq (RStar true RAny) REmpty))
                          REmpty))))).
    now rewrite execFrom_needs_char by now apply no_bracket_forall. }
  rewrite Hfast, Hstrip, Htrim.
  rewrite getSubstitution_no_dollar by now apply no_bracket_no_dollar.
  cbn [bind]. unfold assignIfDifferent.
  destruct (inputBox_value repo =? "[" ++ p ++ "] " ++ t)%string;
    reflexivity.
Qed.

Lemma tagged_differs p t : ("[" ++ p ++ "] " ++ t)%string <> t.
Proof.
  intros H. apply (f_equal length) in H.
  simpl in H. rewrite length_append in H. simpl in H. lia.
Qed.

(** X1: under the default configuration, [extractCurrentMessage] undoes the
    tagging: from an input box that holds [[q] ], for an issue key [q], and
    then any text, it returns that text. *)
Theorem extractCurrentMessage_round_trip repo q t :
  is_ML_key q ->
  inputBox_value repo = "[" ++ q ++ "] " ++ t ->
  extractCurrentMessage repo defaultConfig = t.
Proof. exact (extract_tagged repo q t). Qed.

Lemma ML_key_7 : is_ML_key "ML-7".
Proof. exists "7"%char, "". repeat split. Defined.

Lemma extractCurrentMessage_round_trip_witness :
  is_ML_key "ML-7"
  /\ inputBox_value (repoOn "main" "[ML-7] Old [work] $1")
     = "[" ++ "ML-7" ++ "] " ++ "Old [work] $1"
  /\ extractCurrentMessage (repoOn "main" "[ML-7] Old [work] $1") defaultConfig
     = "Old [work] $1".
Proof.
  split; [exact ML_key_7 |]. split; [reflexivity |].
  apply (extractCurrentMessage_round_trip
           (repoOn "main" "[ML-7] Old [work] $1") "ML-7" "Old [work] $1");
    [exact ML_key_7 | reflexivity].
Defined.

(** X2: under the default configuration, on a branch with the prefix [p], a
    pass over an input box that holds a trimmed text without brackets and
    dollar signs assigns [[p] ] and the text to the input box, once. *)
Theorem pass_tags_message repo m p t :
  JS.match_ (branchOf repo) (commitMessagePrefixPattern defaultConfig) = Some m
  -> JS.group 1 m = Some p ->
  inputBox_value repo = t ->
  no_bracket_dollar t = true ->
  Str.trim t = t ->
  updateCommitMessage repo defaultConfig None
  = Ok (set_inputBox_value repo ("[" ++ p ++ "] " ++ t)).
Proof.
  intros Hm Hp Hv Ht Htrim.
  rewrite (pass_default repo m p t Hm Hp (extract_no_bracket repo t Ht Hv)
             Ht Htrim).
  unfold assignIfDifferent. rewrite Hv.
  destruct (String.eqb_spec t ("[" ++ p ++ "] " ++ t)) as [E | _];
    [| reflexivity].
  symmetry in E. now apply tagged_differs in E.
Qed.

Lemma pass_tags_message_witness :
  JS.match_ (branchOf (repoOn "ML-42-fix" "Fix the bug"))
    (commitMessagePrefixPattern defaultConfig)
  = Some (mkMatch 0 "ML-42-fix" "" [Some "ML-42"])
  /\ updateCommitMessage (repoOn "ML-42-fix" "Fix the bug") defaultConfig None
     = Ok (set_inputBox_value (repoOn "ML-42-fix" "Fix the bug")
             ("[" ++ "ML-42" ++ "] " ++ "Fix the bug")).
Proof.
  split; [reflexivity |].
  apply (pass_tags_message (repoOn "ML-42-fix" "Fix the bug")
           (mkMatch 0 "ML-42-fix" "" [Some "ML-42"]) "ML-42" "Fix the bug");
    reflexivity.
Defined.

(** X3: under the default configuration, on a branch with the prefix [p], a
    pass over an input box that holds [[q] ], for any issue key [q], and a
    trimmed text without brackets and dollar signs leaves [[p] ] and the
    text in the input box: the old key is replaced, not kept beside the new
    one, and nothing is assigned when [q] is [p]. *)
Theorem pass_replaces_stale_prefix repo m p q t :
  JS.match_ (branchOf repo) (commitMessagePrefixPattern defaultConfig) = Some m
  -> JS.group 1 m = Some p ->
  is_ML_key q ->
  inputBox_value repo = "[" ++ q ++ "] " ++ t ->
  no_bracket_dollar t = true ->
  Str.trim t = t ->
  exists r,
    updateCommitMessage repo defaultConfig None = Ok r
    /\ inputBox_value r = "[" ++ p ++ "] " ++ t
    /\ (q = p -> r = repo)
    /\ (q <> p ->
        inputBox_assignments r
        = ("[" ++ p ++ "] " ++ t)%string :: inputBox_assignments repo).
Proof.
  intros Hm Hp Hq Hv Ht Htrim.
  rewrite (pass_default repo m p t Hm Hp (extract_tagged repo q t Hq Hv)
             Ht Htrim).
  eexists. split; [reflexivity |]. unfold assignIfDifferent. rewrite Hv.
  destruct (String.eqb_spec ("[" ++ q ++ "] " ++ t) ("[" ++ p ++ "] " ++ t))
    as [E | E].
  - assert (Hqp : q = p).
    { simpl in E. injection E as E.
      clear -E. revert p E.
      induction q as [| a q IH]; intros [| b p] E; simpl in E.
      - reflexivity.
      - exfalso. apply (f_equal length) in E. simpl in E.
        rewrite length_append in E. simpl in E. lia.
      - exfalso. apply (f_equal length) in E. simpl in E.
        rewrite length_append in E. simpl in E. lia.
      - injection E as -> E. f_equal. now apply IH. }
    subst q. split; [exact Hv |]. split; [reflexivity |].
    intros Hne. now contradiction Hne.
  - split; [reflexivity |]. split; [| reflexivity].
    intros ->. now contradiction E.
Qed.

Lemma pass_replaces_stale_prefix_witness :
  JS.match_ (branchOf (repoOn "ML-42-x" "[ML-7] Old work"))
    (commitMessagePrefixPattern defaultConfig)
  = Some (mkMatch 0 "ML-42-x" "" [Some "ML-42"])
  /\ is_ML_key "ML-7"
  /\ exists r,
       updateCommitMessage (repoOn "ML-42-x" "[ML-7] Old work") defaultConfig
         None = Ok r
       /\ inputBox_value r = "[" ++ "ML-42" ++ "] " ++ "Old work"
       /\ ("ML-7" = "ML-42" -> r = repoOn "ML-42-x" "[ML-7] Old work")
       /\ ("ML-7" <> "ML-42" ->
           inputBox_assignments r
           = ("[" ++ "ML-42" ++ "] " ++ "Old work")%string
               :: inputBox_assignments (repoOn "ML-42-x" "[ML-7] Old work")).
Proof.
  split; [reflexivity |]. split; [exact ML_key_7 |].
  apply (pass_replaces_stale_prefix (repoOn "ML-42-x" "[ML-7] Old work")
           (mkMatch 0 "ML-42-x" "" [Some "ML-42"]) "ML-42" "ML-7" "Old work");
    solve [reflexivity | exact ML_key_7].
Defined.

(** X4: under the default configuration a second pass changes nothing: on
    a matching branch, after a pass over an input box that holds a trimmed
    text without brackets and dollar signs, with or without an issue key in
    front, the next pass returns the repository as the first one left it. *)
Theorem pass_is_stable repo m p t r :
  JS.match_ (branchOf repo) (commitMessagePrefixPattern defaultConfig) = Some m
  -> JS.group 1 m = Some p ->
  no_bracket_dollar t = true ->
  Str.trim t = t ->
  inputBox_value repo = t
  \/ (exists q, is_ML_key q /\ inputBox_value repo = "[" ++ q ++ "] " ++ t) ->
  updateCommitMessage repo defaultConfig None = Ok r ->
  updateCommitMessage r defaultConfig None = Ok r.
Proof.
  intros Hm Hp Ht Htrim Hv Hr.
  pose proof (default_pattern_captures _ _ _ Hm Hp) as Hkey.
  assert (Hext : extractCurrentMessage repo defaultConfig = t).
  { destruct Hv as [Hv | (q & Hq & Hv)].
    - now apply extract_no_bracket.
    - now apply (extract_tagged repo q t). }
  rewrite (pass_default repo m p t Hm Hp Hext Ht Htrim) in Hr.
  injection Hr as Hr. subst r.
  assert (Hvalue : inputBox_value
                     (assignIfDifferent repo ("[" ++ p ++ "] " ++ t))
                   = "[" ++ p ++ "] " ++ t).
  { unfold assignIfDifferent.
    destruct (String.eqb_spec (inputBox_value repo) ("[" ++ p ++ "] " ++ t));
      [assumption | reflexivity]. }
  assert (Hbranch : branchOf (assignIfDifferent repo ("[" ++ p ++ "] " ++ t))
                    = branchOf repo).
  { unfold assignIfDifferent.
    destruct (inputBox_value repo =? "[" ++ p ++ "] " ++ t)%string;
      reflexivity. }
  change (String "[" (p ++ String "]" (String " " t)))
    with ("[" ++ p ++ "] " ++ t)%string.
  rewrite (pass_default (assignIfDifferent repo ("[" ++ p ++ "] " ++ t))
             m p t); auto.
  - unfold assignIfDifferent at 1. now rewrite Hvalue, String.eqb_refl.
  - now rewrite Hbranch.
  - now apply (extract_tagged _ p t).
Qed.

Lemma pass_is_stable_witness :
  JS.match_ (branchOf (repoOn "ML-42-x" "[ML-7] Old work"))
    (commitMessagePrefixPattern defaultConfig)
  = Some (mkMatch 0 "ML-42-x" "" [Some "ML-42"])
  /\ updateCommitMessage (repoOn "ML-42-x" "[ML-7] Old work") defaultConfig
       None
     = Ok (set_inputBox_value (repoOn "ML-42-x" "[ML-7] Old work")
             "[ML-42] Old work")
  /\ updateCommitMessage
       (set_inputBox_value (repoOn "ML-42-x" "[ML-7] Old work")
          "[ML-42] Old work") defaultConfig None
     = Ok (set_inputBox_value (repoOn "ML-42-x" "[ML-7] Old work")
             "[ML-42] Old work").
Proof.
  split; [reflexivity |]. split; [reflexivity |].
  apply (pass_is_stable (repoOn "ML-42-x" "[ML-7] Old work")
           (mkMatch 0 "ML-42-x" "" [Some "ML-42"]) "ML-42" "Old work");
    try reflexivity.
  right. exists "ML-7". split; [exact ML_key_7 | reflexivity].
Defined.

(** ** A pass under any configuration *)

(** X5: on a branch that the prefix pattern does not match, a pass leaves
    the message that [extractCurrentMessage] returns in the input box, for
    every configuration: an outdated prefix is removed there too, and the
    input box is assigned only when this changes its value. *)
Theorem pass_non_matching_branch repo config :
  branchOf repo <> "" ->
  JS.test (commitMessagePrefixPattern config) (branchOf repo) = false ->
  updateCommitMessage repo config None
  = Ok (assignIfDifferent repo (extractCurrentMessage repo config)).
Proof.
  intros Hb Hm. unfold updateCommitMessage.
  apply String.eqb_neq in Hb. rewrite Hb.
  unfold getCommitMessage. rewrite Hm. cbn [negb bind].
  unfold assignIfDifferent.
  destruct (inputBox_value repo =? extractCurrentMessage repo config)%string;
    reflexivity.
Qed.

Lemma pass_non_matching_branch_witness :
  branchOf (repoOn "main" "[ML-7] Old work") <> ""
  /\ JS.test (commitMessagePrefixPattern defaultConfig)
       (branchOf (repoOn "main" "[ML-7] Old work")) = false
  /\ updateCommitMessage (repoOn "main" "[ML-7] Old work") defaultConfig None
     = Ok (set_inputBox_value (repoOn "main" "[ML-7] Old work") "Old work").
Proof.
  split; [discriminate |]. split; [reflexivity |].
  apply (pass_non_matching_branch (repoOn "main" "[ML-7] Old work")
           defaultConfig); [discriminate | reflexivity].
Defined.

(** X6: a pass that returns never changes the branch or the root of the
    repository, and it assigns the input box at most once and only a value
    different from the one it held. *)
Theorem pass_assigns_only_changes repo config currentMessage r :
  updateCommitMessage repo config currentMessage = Ok r ->
  rootUri_fsPath r = rootUri_fsPath repo
  /\ state_HEAD r = state_HEAD repo
  /\ (r = repo
      \/ (inputBox_value r <> inputBox_value repo
          /\ inputBox_assignments r
             = inputBox_value r :: inputBox_assignments repo)).
Proof.
  unfold updateCommitMessage.
  destruct (branchOf repo =? "")%string.
  - intros [= <-]. auto.
  - destruct (getCommitMessage _ _ config) as [updated | e];
      [| discriminate].
    cbn [bind].
    destruct (String.eqb_spec (inputBox_value repo) updated) as [E | E];
      cbn [negb]; intros [= <-]; auto.
Qed.

Lemma pass_assigns_only_changes_witness :
  updateCommitMessage (repoOn "ML-42-x" "Fix") defaultConfig None
  = Ok (set_inputBox_value (repoOn "ML-42-x" "Fix") "[ML-42] Fix")
  /\ state_HEAD (set_inputBox_value (repoOn "ML-42-x" "Fix") "[ML-42] Fix")
     = state_HEAD (repoOn "ML-42-x" "Fix").
Proof.
  split; [reflexivity |].
  apply (pass_assigns_only_changes (repoOn "ML-42-x" "Fix") defaultConfig
           None).
  reflexivity.
Defined.

(** ** What the fast path accepts *)

Lemma execFrom_bol_short r n s : forall idx,
  length s < n -> execFrom (RSeq RBol r) n idx s = None.
Proof.
  induction s as [| a s IH]; intros idx Hlen; cbn [execFrom];
    unfold matchAt; cbn [rmatch];
    (replace (length _ =? n) with false
      by (symmetry; apply Nat.eqb_neq; lia)).
  - reflexivity.
  - apply IH. simpl in Hlen. lia.
Qed.

Lemma exec_bol r s :
  exec (RSeq RBol r) s = matchAt (RSeq RBol r) (length s) 0 s.
Proof.
  unfold exec. destruct s as [| a s]; cbn [execFrom].
  - destruct (matchAt _ _ _ _); reflexivity.
  - destruct (matchAt _ _ _ _); [reflexivity |].
    apply execFrom_bol_short. simpl. lia.
Qed.

Lemma lang_chars p tail : forall w,
  lang (chars p tail) w -> exists w', w = p ++ w' /\ lang tail w'.
Proof.
  induction p as [| a p IH]; intros w H; simpl in H.
  - now exists w.
  - inversion H as [| | | | r1 r2 w1 w2 H1 H2 | | | | | | | | | |]; subst.
    inversion H1; subst.
    destruct (IH _ H2) as (w' & -> & Hw').
    now exists w'.
Qed.

Lemma test_prefixRegex_inv p msg :
  JS.test (prefixRegexOf p) msg = true ->
  exists ws rest,
    Str.is_space ws = true /\ msg = "[" ++ p ++ "]" ++ String ws rest.
Proof.
  unfold JS.test, prefixRegexOf. rewrite exec_bol.
  destruct (matchAt _ _ _ _) as [m |] eqn:Hm; [| discriminate].
  intros _. unfold matchAt in Hm. cbn [rmatch] in Hm.
  rewrite Nat.eqb_refl in Hm.
  change (matchChar (Ascii.eqb "[") msg no_captures
            (fun s' c' =>
               rmatch (length msg)
                 (chars p
                    (RSeq (RChar "]")
                       (RSeq (RSet false [CSpace true]) REmpty)))
                 s' c'
                 (fun s'0 c'0 =>
                    Some
                      (mkMatch 0 (Str.consumed msg s'0) s'0
                         (map c'0
                            (seq 1
                               (ngroups
                                  (RSeq RBol
                                     (RSeq (RChar "[")
                                        (chars p
                                           (RSeq (RChar "]")
                                              (RSeq (RSet false [CSpace true])
                                                 REmpty)))))))))))
          = Some m)
    with (rmatch (length msg)
            (RSeq (RChar "[")
               (chars p
                  (RSeq (RChar "]") (RSeq (RSet false [CSpace true]) REmpty))))
            msg no_captures
            (fun s'0 c'0 =>
               Some
                 (mkMatch 0 (Str.consumed msg s'0) s'0
                    (map c'0
                       (seq 1
                          (ngroups
                             (RSeq RBol
                                (RSeq (RChar "[")
                                   (chars p
                                      (RSeq (RChar "]")
                                         (RSeq (RSet false [CSpace true])
                                            REmpty))))))))))
          = Some m) in Hm.
  eapply (rmatch_sound _ _ (fun _ _ => True)) in Hm;
    [| apply respects_True | apply captures_in_none].
  destruct Hm as (w & rest & _ & -> & Hw & _).
  inversion Hw as [| | | | r1 r2 w1 w2 H1 H2 | | | | | | | | | |]; subst.
  inversion H1; subst.
  apply lang_chars in H2. destruct H2 as (w' & -> & Hw').
  inversion Hw' as [| | | | r1 r2 w3 w4 H3 H4 | | | | | | | | | |]; subst.
  inversion H3; subst.
  inversion H4 as [| | | | r1 r2 w5 w6 H5 H6 | | | | | | | | | |]; subst.
  inversion H5 as [| | | neg items ws Hws | | | | | | | | | | |]; subst.
  inversion H6; subst.
  exists ws, rest. split.
  - unfold set_matches in Hws. simpl in Hws.
    now destruct (Str.is_space ws).
  - simpl. rewrite ?append_assoc. simpl. rewrite ?append_nil_r.
    reflexivity.
Qed.

(** X7: under the default configuration, on a branch with the prefix [p],
    [getCommitMessage] returns for every current message a message that
    begins with [[p]] and a white-space character. *)
Theorem getCommitMessage_is_tagged branch msg m p :
  JS.match_ branch (commitMessagePrefixPattern defaultConfig) = Some m ->
  JS.group 1 m = Some p ->
  exists ws rest,
    Str.is_space ws = true
    /\ getCommitMessage branch msg defaultConfig
       = Ok ("[" ++ p ++ "]" ++ String ws rest).
Proof.
  intros Hm Hp.
  pose proof (getCommitMessage_bracket_format defaultConfig branch msg
                eq_refl) as H.
  rewrite Hm, Hp in H. cbn [JS.toString] in H.
  rewrite H by exact (default_pattern_plain _ _ _ Hm Hp). clear H.
  destruct (JS.test (prefixRegexOf p) msg) eqn:Hfast.
  - apply test_prefixRegex_inv in Hfast.
    destruct Hfast as (ws & rest & Hws & ->). now exists ws, rest.
  - exists " "%char. eexists. split; [reflexivity |]. reflexivity.
Qed.

Lemma getCommitMessage_is_tagged_witness :
  JS.match_ "ML-42-x" (commitMessagePrefixPattern defaultConfig)
  = Some (mkMatch 0 "ML-42-x" "" [Some "ML-42"])
  /\ exists ws rest,
       Str.is_space ws = true
       /\ getCommitMessage "ML-42-x" "  $$ [x" defaultConfig
          = Ok ("[" ++ "ML-42" ++ "]" ++ String ws rest).
Proof.
  split; [reflexivity |].
  apply (getCommitMessage_is_tagged "ML-42-x" "  $$ [x"
           (mkMatch 0 "ML-42-x" "" [Some "ML-42"]) "ML-42");
    reflexivity.
Defined.

(** X8: [getCommitMessage] throws only because of the prefix: for every
    configuration, branch and message, it returns a message when the prefix
    that the branch gives is made of letters, digits, [_] and [-]. *)
Theorem getCommitMessage_returns config branch msg :
  (forall m p,
      JS.match_ branch (commitMessagePrefixPattern config) = Some m ->
      JS.group 1 m = Some p -> plain p = true) ->
  exists result, getCommitMessage branch msg config = Ok result.
Proof.
  intros Hplain. unfold getCommitMessage, JS.test, JS.match_.
  destruct (exec (commitMessagePrefixPattern config) branch) as [m |] eqn:Hm;
    cbn [negb]; [| eauto].
  rewrite new_RegExp_prefix
    by (apply plain_undefined; intros p; now apply Hplain).
  cbn [bind].
  destruct (exec (prefixRegexOf (JS.toString (JS.group 1 m))) msg); eauto.
Qed.

Lemma getCommitMessage_returns_witness :
  (forall m p,
      JS.match_ "PP-716-x" (commitMessagePrefixPattern testConfig) = Some m ->
      JS.group 1 m = Some p -> plain p = true)
  /\ exists result, getCommitMessage "PP-716-x" "Test" testConfig = Ok result.
Proof.
  assert (H : forall m p,
             JS.match_ "PP-716-x" (commitMessagePrefixPattern testConfig)
             = Some m ->
             JS.group 1 m = Some p -> plain p = true).
  { intros m p Hm Hp. vm_compute in Hm. injection Hm as <-.
    vm_compute in Hp. injection Hp as <-. reflexivity. }
  split; [exact H |].
  apply (getCommitMessage_returns testConfig "PP-716-x" "Test"). exact H.
Defined.

(** ** The group text that [getExtensionConfig] takes from the pattern *)

Lemma takeWhile_append p w x r :
  Str.forallb p w = true -> p x = false ->
  Str.takeWhile p (w ++ String x r) = w.
Proof.
  intros Hw Hx. induction w as [| a w IH]; simpl.
  - now rewrite Hx.
  - simpl in Hw. apply andb_true_iff in Hw. destruct Hw as [Ha Hw].
    rewrite Ha. now rewrite IH.
Qed.

Lemma firstGroupText_none s :
  Str.forallb (fun a => negb (Ascii.eqb "(" a)) s = true ->
  firstGroupText s = None.
Proof.
  induction s as [| a s IH]; simpl; [reflexivity |].
  intros H. apply andb_true_iff in H. destruct H as [Ha Hs].
  apply negb_true_iff in Ha. rewrite Ha. now apply IH.
Qed.

(** X9: the group text that [getExtensionConfig] puts in the derived
    pattern is, for a raw pattern that begins with [(], a non-empty text
    without [)] and then [)], this text, whatever follows; for a raw pattern
    without [(] it is the whole pattern.  The text is cut at the first [)]:
    with a group inside the first group, as in [((ML)-\d+)-.*], it is
    [(ML], and the derived pattern does not compile. *)
Theorem prefixPatternOf_first_group :
  (forall g tail,
      g <> "" -> Str.forallb not_close g = true ->
      prefixPatternOf ("(" ++ g ++ ")" ++ tail) = g)
  /\ (forall tagPattern,
        Str.forallb (fun a => negb (Ascii.eqb "(" a)) tagPattern = true ->
        prefixPatternOf tagPattern = tagPattern)
  /\ prefixPatternOf "((ML)-\d+)-.*" = "(ML"
  /\ getExtensionConfig (mkSettings (Some "((ML)-\d+)-.*") None None)
     = Throw (SyntaxError
                "Invalid regular expression: /\[((ML)\] (.*)/: Unterminated group").
Proof.
  split; [| split; [| split; reflexivity]].
  - intros g tail Hg Hclose. rewrite prefixPatternOf_spec.
    change ("(" ++ g ++ ")" ++ tail)%string
      with (String "(" (g ++ String ")" tail)).
    cbn [firstGroupText]. rewrite Ascii.eqb_refl.
    rewrite takeWhile_append, dropWhile_append by auto.
    destruct g; [contradiction | reflexivity].
  - intros tagPattern H. rewrite prefixPatternOf_spec.
    now rewrite firstGroupText_none.
Qed.

Lemma prefixPatternOf_first_group_witness :
  "ML-\d+" <> ""
  /\ Str.forallb not_close "ML-\d+" = true
  /\ prefixPatternOf ("(" ++ "ML-\d+" ++ ")" ++ "-.*") = "ML-\d+".
Proof.
  split; [discriminate |]. split; [reflexivity |].
  apply (proj1 prefixPatternOf_first_group "ML-\d+" "-.*");
    [discriminate | reflexivity].
Defined.

(** ** The listeners of a watcher *)

Lemma In_unwatchFile f path files :
  In f (unwatchFile path files) <-> In f files /\ f <> path.
Proof.
  unfold unwatchFile. rewrite filter_In.
  destruct (String.eqb_spec f path); simpl; intuition congruence.
Qed.

Lemma watchedFiles_log w message : watchedFiles (log w message) = watchedFiles w.
Proof. reflexivity. Qed.

Lemma watchedFiles_dispose w f :
  In f (watchedFiles (dispose w)) <->
  In f (watchedFiles w)
  /\ (gitHeadWatcher w = true -> f <> gitHeadPath w)
  /\ (forall path, refWatcher w = Some path -> f <> path).
Proof.
  unfold dispose.
  destruct (gitHeadWatcher w) eqn:Hh; cbn [refWatcher watchedFiles];
    destruct (refWatcher w) as [path |] eqn:Hr;
    cbn [log watchedFiles repo config gitHeadWatcher refWatcher];
    rewrite ?In_unwatchFile.
  - unfold gitHeadPath at 1. cbn [repo].
    split.
    + intros [[Hf Hhead] Hpath]. repeat split; auto.
      intros path' [= <-]. exact Hpath.
    + intros (Hf & Hhead & Hpath). repeat split; auto.
  - unfold gitHeadPath at 1.
    split.
    + intros [Hf Hhead]. repeat split; auto. discriminate.
    + intros (Hf & Hhead & _). auto.
  - split.
    + intros [Hf Hpath]. repeat split; auto; try discriminate.
      intros path' [= <-]. exact Hpath.
    + intros (Hf & _ & Hpath). auto.
  - split.
    + intros Hf. repeat split; auto; discriminate.
    + tauto.
Qed.

(** X10: [dispose] removes the listeners of the watcher: afterwards the
    watcher holds no listener on its [HEAD] file, when it had registered
    one, nor on the ref file that it has recorded; it adds no listener, and
    the repository and the configuration stay as they are. *)
Theorem dispose_releases w :
  (gitHeadWatcher w = true -> ~ In (gitHeadPath w) (watchedFiles (dispose w)))
  /\ (forall path,
        refWatcher w = Some path -> ~ In path (watchedFiles (dispose w)))
  /\ (forall f, In f (watchedFiles (dispose w)) -> In f (watchedFiles w))
  /\ repo (dispose w) = repo w
  /\ config (dispose w) = config w.
Proof.
  split; [| split; [| split; [| split]]].
  - intros Hh Hin. apply watchedFiles_dispose in Hin.
    destruct Hin as (_ & Hhead & _). now apply Hhead.
  - intros path Hr Hin. apply watchedFiles_dispose in Hin.
    destruct Hin as (_ & _ & Hpath). now apply (Hpath path).
  - intros f Hin. now apply watchedFiles_dispose in Hin.
  - apply dispose_repo.
  - apply dispose_config.
Qed.

Lemma dispose_releases_witness :
  refWatcher
    (mkWatcher (repoOn "main" "") defaultConfig true
       (Some "/work/.git/refs/heads/main")
       ["/work/.git/refs/heads/main"; "/work/.git/HEAD"] [])
  = Some "/work/.git/refs/heads/main"
  /\ ~ In "/work/.git/refs/heads/main"
         (watchedFiles
            (dispose
               (mkWatcher (repoOn "main" "") defaultConfig true
                  (Some "/work/.git/refs/heads/main")
                  ["/work/.git/refs/heads/main"; "/work/.git/HEAD"] []))).
Proof.
  split; [reflexivity |].
  apply (proj1 (proj2 (dispose_releases
                         (mkWatcher (repoOn "main" "") defaultConfig true
                            (Some "/work/.git/refs/heads/main")
                            ["/work/.git/refs/heads/main"; "/work/.git/HEAD"]
                            [])))).
  reflexivity.
Defined.

Lemma updateCommitMessage_root repo config currentMessage r :
  updateCommitMessage repo config currentMessage = Ok r ->
  rootUri_fsPath r = rootUri_fsPath repo.
Proof.
  unfold updateCommitMessage.
  destruct (branchOf repo =? "")%string; [now intros [= <-] |].
  destruct (getCommitMessage _ _ config) as [updated | e]; [| discriminate].
  cbn [bind].
  destruct (negb (inputBox_value repo =? updated)%string);
    now intros [= <-].
Qed.

Lemma safeUpdate_fields w currentMessage :
  gitHeadPath (safeUpdateCommitMessage w currentMessage) = gitHeadPath w
  /\ watchedFiles (safeUpdateCommitMessage w currentMessage) = watchedFiles w
  /\ refWatcher (safeUpdateCommitMessage w currentMessage) = refWatcher w
  /\ gitHeadWatcher (safeUpdateCommitMessage w currentMessage)
     = gitHeadWatcher w.
Proof.
  unfold safeUpdateCommitMessage, gitHeadPath.
  destruct (updateCommitMessage (repo w) (config w) currentMessage)
    as [r | e] eqn:H; cbn; auto.
  now rewrite (updateCommitMessage_root _ _ _ _ H).
Qed.

Lemma dispose_fields w :
  gitHeadPath (dispose w) = gitHeadPath w
  /\ refWatcher (dispose w) = refWatcher w
  /\ gitHeadWatcher (dispose w) = gitHeadWatcher w.
Proof.
  unfold gitHeadPath. rewrite dispose_repo. unfold dispose.
  destruct (gitHeadWatcher w) eqn:Hh; cbn;
    destruct (refWatcher w) eqn:Hr; cbn; auto.
Qed.

(** X11: [updateConfig] keeps the listeners when the watch interval is the
    same.  When the interval changes, a watcher that had registered its
    [HEAD] listener ends with exactly one listener on its [HEAD] file and
    with none on its ref file, which stays recorded: the ref file is
    watched again only by the read of [HEAD] that [setupWatchers] starts. *)
Theorem updateConfig_listeners w newConfig :
  gitHeadWatcher w = true ->
  (gitHeadWatchInterval (config w) = gitHeadWatchInterval newConfig ->
   watchedFiles (updateConfig w newConfig) = watchedFiles w)
  /\ (gitHeadWatchInterval (config w) <> gitHeadWatchInterval newConfig ->
      count_occ string_dec (watchedFiles (updateConfig w newConfig))
        (gitHeadPath w) = 1
      /\ refWatcher (updateConfig w newConfig) = refWatcher w
      /\ forall path,
           refWatcher w = Some path -> path <> gitHeadPath w ->
           ~ In path (watchedFiles (updateConfig w newConfig))).
Proof.
  intros Hh. unfold updateConfig. cbv zeta.
  destruct (safeUpdate_fields
              (if negb (gitHeadWatchInterval (config w)
                        =? gitHeadWatchInterval newConfig)
               then setupWatchers
                      (dispose
                         (log (set_config w newConfig)
                            "Watch interval changed, recreating watchers"))
               else set_config w newConfig)
              (Some (extractCurrentMessage
                       (repo (if negb (gitHeadWatchInterval (config w)
                                       =? gitHeadWatchInterval newConfig)
                              then setupWatchers
                                     (dispose
                                        (log (set_config w newConfig)
                                           "Watch interval changed, recreating watchers"))
                              else set_config w newConfig))
                       (config w))))
    as (_ & Hfiles & Href & _).
  rewrite Hfiles, Href. clear Hfiles Href.
  split.
  - intros Heq. apply Nat.eqb_eq in Heq. now rewrite Heq.
  - intros Hne. apply Nat.eqb_neq in Hne. rewrite Hne. cbn [negb].
    set (w1 := log (set_config w newConfig)
                 "Watch interval changed, recreating watchers").
    assert (Hpath : gitHeadPath (dispose w1) = gitHeadPath w)
      by (now destruct (dispose_fields w1) as (-> & _)).
    assert (Hout : ~ In (gitHeadPath w) (watchedFiles (dispose w1))).
    { intros Hin. apply watchedFiles_dispose in Hin.
      destruct Hin as (_ & Hhead & _). now apply Hhead. }
    split; [| split].
    + unfold setupWatchers. cbn [watchedFiles]. rewrite Hpath.
      cbn [count_occ]. destruct (string_dec (gitHeadPath w) (gitHeadPath w));
        [| contradiction].
      f_equal. now apply count_occ_not_In.
    + unfold setupWatchers. cbn [refWatcher].
      now destruct (dispose_fields w1) as (_ & -> & _).
    + intros path Hr Hneq Hin.
      unfold setupWatchers in Hin. cbn [watchedFiles] in Hin.
      rewrite Hpath in Hin. destruct Hin as [Hin | Hin]; [congruence |].
      apply watchedFiles_dispose in Hin.
      destruct Hin as (_ & _ & Hin). now apply (Hin path).
Qed.

Lemma updateConfig_listeners_witness :
  gitHeadWatcher (watcherOf (repoOn "ML-42-x" "Fix") defaultConfig) = true
  /\ gitHeadWatchInterval
       (config (watcherOf (repoOn "ML-42-x" "Fix") defaultConfig))
     <> gitHeadWatchInterval
          (mkConfig (commitMessagePrefixPattern defaultConfig)
             (commitMessageFormat defaultConfig) 50
             (outdatedPrefixPattern defaultConfig))
  /\ count_occ string_dec
       (watchedFiles
          (updateConfig (watcherOf (repoOn "ML-42-x" "Fix") defaultConfig)
             (mkConfig (commitMessagePrefixPattern defaultConfig)
                (commitMessageFormat defaultConfig) 50
                (outdatedPrefixPattern defaultConfig))))
       (gitHeadPath (watcherOf (repoOn "ML-42-x" "Fix") defaultConfig))
     = 1.
Proof.
  split; [reflexivity |]. split; [discriminate |].
  apply (proj2 (updateConfig_listeners
                  (watcherOf (repoOn "ML-42-x" "Fix") defaultConfig)
                  (mkConfig (commitMessagePrefixPattern defaultConfig)
                     (commitMessageFormat defaultConfig) 50
                     (outdatedPrefixPattern defaultConfig))
                  eq_refl)).
  discriminate.
Defined.

Lemma setupRefWatcher_fields w path :
  gitHeadPath (setupRefWatcher w path) = gitHeadPath w
  /\ refWatcher (setupRefWatcher w path) = Some path
  /\ repo (setupRefWatcher w path) = repo w
  /\ config (setupRefWatcher w path) = config w
  /\ forall f,
       In f (watchedFiles (setupRefWatcher w path)) <->
       f = path
       \/ (In f (watchedFiles w)
           /\ forall old, refWatcher w = Some old -> f <> old).
Proof.
  unfold setupRefWatcher, gitHeadPath.
  destruct (refWatcher w) as [old |] eqn:Hr; cbn; repeat split; auto.
  - intros [Hf | Hf]; [auto |]. apply In_unwatchFile in Hf.
    destruct Hf as [Hf Hne]. right. split; [exact Hf |].
    now intros old' [= <-].
  - intros [Hf | [Hf Hne]]; [auto |]. right. apply In_unwatchFile.
    split; [exact Hf |]. now apply Hne.
  - intros [Hf | Hf]; auto. right. split; [exact Hf | discriminate].
  - intros [Hf | [Hf _]]; auto.
Qed.

Lemma listeners_known_setupRefWatcher w path :
  listeners_known w -> listeners_known (setupRefWatcher w path).
Proof.
  intros Hw f Hf.
  destruct (setupRefWatcher_fields w path) as (Hhead & Href & _ & _ & Hin).
  rewrite Hhead, Href. apply Hin in Hf.
  destruct Hf as [-> | [Hf Hne]]; [now right |].
  destruct (Hw f Hf) as [Hf' | Hf']; [now left |].
  now contradiction (Hne f Hf').
Qed.

Lemma listeners_known_safeUpdate w currentMessage :
  listeners_known w -> listeners_known (safeUpdateCommitMessage w currentMessage).
Proof.
  intros Hw f.
  destruct (safeUpdate_fields w currentMessage) as (-> & -> & -> & _).
  apply Hw.
Qed.

Lemma listeners_known_log w message :
  listeners_known w -> listeners_known (log w message).
Proof. exact (fun H => H). Qed.

Lemma listeners_known_dispose w :
  listeners_known w -> listeners_known (dispose w).
Proof.
  intros Hw f Hf. destruct (dispose_fields w) as (-> & -> & _).
  apply watchedFiles_dispose in Hf. now apply Hw.
Qed.

Lemma listeners_known_updateConfig w newConfig :
  listeners_known w -> listeners_known (updateConfig w newConfig).
Proof.
  intros Hw. unfold updateConfig. cbv zeta.
  apply listeners_known_safeUpdate.
  destruct (negb (gitHeadWatchInterval (config w)
                  =? gitHeadWatchInterval newConfig)); [| exact Hw].
  set (w1 := log (set_config w newConfig)
               "Watch interval changed, recreating watchers").
  assert (H1 : listeners_known (dispose w1))
    by (apply listeners_known_dispose; exact Hw).
  intros f Hf. unfold setupWatchers in *. cbn in Hf |- *.
  destruct Hf as [<- | Hf]; [now left |]. exact (H1 f Hf).
Qed.

(** X12: a watcher never keeps a listener on a file that it has lost track
    of.  After the constructor every file with a listener is the [HEAD]
    file of the watcher or the ref file that it has recorded, and a pass,
    [updateConfig], [setupRefWatcher], [dispose] and the two callbacks that
    read [HEAD] keep it so; so at most one file other than [HEAD] has a
    listener. *)
Theorem listeners_stay_known :
  (forall r c lines, listeners_known (newRepositoryWatcher r c lines))
  /\ (forall w,
        listeners_known w ->
        (forall currentMessage,
            listeners_known (safeUpdateCommitMessage w currentMessage))
        /\ (forall newConfig, listeners_known (updateConfig w newConfig))
        /\ (forall path, listeners_known (setupRefWatcher w path))
        /\ listeners_known (dispose w)
        /\ (forall join dirname gitHeadPath read w',
              onHeadChangeRead join dirname w gitHeadPath read = Returned w' ->
              listeners_known w')
        /\ (forall join gitDir read w',
              onSetupRead join w gitDir read = Returned w' ->
              listeners_known w')
        /\ (forall f g,
              In f (watchedFiles w) -> In g (watchedFiles w) ->
              f <> gitHeadPath w -> g <> gitHeadPath w -> f = g)).
Proof.
  split.
  - intros r c lines. unfold newRepositoryWatcher. cbv zeta.
    apply listeners_known_safeUpdate.
    intros f Hf. cbn in Hf. destruct Hf as [<- | []]. now left.
  - intros w Hw. repeat split.
    + intros cur. now apply listeners_known_safeUpdate.
    + intros c. now apply listeners_known_updateConfig.
    + intros path. now apply listeners_known_setupRefWatcher.
    + now apply listeners_known_dispose.
    + intros join dirname path read w'. unfold onHeadChangeRead.
      destruct read as [message | headContent].
      * intros [= <-]. exact Hw.
      * destruct (getBranchRefPath join (dirname path) headContent)
          as [[refPath |] | e]; [| | discriminate]; intros [= <-];
          apply listeners_known_safeUpdate; [| exact Hw].
        destruct (refPath =? "")%string; [exact Hw |].
        now apply listeners_known_setupRefWatcher.
    + intros join gitDir read w'. unfold onSetupRead.
      destruct read as [message | headContent].
      * intros [= <-]. exact Hw.
      * destruct (getBranchRefPath join gitDir headContent)
          as [[refPath |] | e]; [| | discriminate]; intros [= <-];
          [| exact Hw].
        destruct (refPath =? "")%string; [exact Hw |].
        now apply listeners_known_setupRefWatcher.
    + intros f g Hf Hg Hfh Hgh.
      destruct (Hw f Hf) as [| Hf']; [contradiction |].
      destruct (Hw g Hg) as [| Hg']; [contradiction |]. congruence.
Qed.

Lemma listeners_stay_known_witness :
  listeners_known (watcherOf (repoOn "ML-42-x" "Fix") defaultConfig)
  /\ listeners_known
       (setupRefWatcher (watcherOf (repoOn "ML-42-x" "Fix") defaultConfig)
          "/work/.git/refs/heads/ML-42-x").
Proof.
  assert (H : listeners_known
                (watcherOf (repoOn "ML-42-x" "Fix") defaultConfig)).
  { intros f Hf. cbn in Hf. destruct Hf as [<- | []]. now left. }
  split; [exact H |].
  apply (proj2 listeners_stay_known
           (watcherOf (repoOn "ML-42-x" "Fix") defaultConfig) H).
Defined.

(** ** The ref path of [HEAD] *)

Lemma splitOn_no_space s :
  Str.forallb no_space_char s = true -> splitOn " " s = [s].
Proof.
  induction s as [| a s IH]; simpl; [reflexivity |].
  intros H. apply andb_true_iff in H. destruct H as [Ha Hs].
  unfold no_space_char in Ha. apply negb_true_iff in Ha.
  now rewrite Ha, IH.
Qed.

Lemma trimEnd_newline name :
  Str.forallb (fun a => negb (Str.is_space a)) name = true ->
  Str.trimEnd (name ++ String (ascii_of_nat 10) "") = name.
Proof.
  induction name as [| a name IH]; intros H.
  - reflexivity.
  - simpl in H. apply andb_true_iff in H. destruct H as [Ha Hn].
    change ((String a name ++ String (ascii_of_nat 10) "")%string)
      with (String a (name ++ String (ascii_of_nat 10) "")).
    cbn [Str.trimEnd]. rewrite IH by assumption.
    apply negb_true_iff in Ha. rewrite Ha. now destruct name.
Qed.

Lemma trim_newline name :
  Str.forallb (fun a => negb (Str.is_space a)) name = true ->
  Str.trim (name ++ String (ascii_of_nat 10) "") = name.
Proof.
  intros H. unfold Str.trim.
  destruct name as [| a name]; [reflexivity |].
  pose proof H as H'. simpl in H'. apply andb_true_iff in H'.
  destruct H' as [Ha _]. apply negb_true_iff in Ha.
  change ((String a name ++ String (ascii_of_nat 10) "")%string)
    with (String a (name ++ String (ascii_of_nat 10) "")).
  cbn [Str.trimStart]. rewrite Ha.
  exact (trimEnd_newline (String a name) H).
Qed.

Lemma space_is_space a :
  negb (Str.is_space a) = true -> no_space_char a = true.
Proof.
  unfold no_space_char. intros H.
  destruct (Ascii.eqb a " ") eqn:E; [| reflexivity].
  apply Ascii.eqb_eq in E. subst a. discriminate H.
Qed.

Lemma getBranchRefPath_ref join gitDir name :
  Str.forallb (fun a => negb (Str.is_space a)) name = true ->
  getBranchRefPath join gitDir
    ("ref: " ++ name ++ String (ascii_of_nat 10) "")
  = Returned (Some (join gitDir name)).
Proof.
  intros Hname. unfold getBranchRefPath.
  change ("ref: " ++ name ++ String (ascii_of_nat 10) "")%string
    with (String "r" (String "e" (String "f" (String ":" (String " "
            (name ++ String (ascii_of_nat 10) "")))))).
  cbn [Str.startsWith splitOn negb andb].
  change (Ascii.eqb "r" "r") with true. change (Ascii.eqb "e" "e") with true.
  change (Ascii.eqb "f" "f") with true. change (Ascii.eqb ":" ":") with true.
  change (Ascii.eqb "r" " ") with false. change (Ascii.eqb "e" " ") with false.
  change (Ascii.eqb "f" " ") with false. change (Ascii.eqb ":" " ") with false.
  change (Ascii.eqb " " " ") with true.
  cbn [andb negb].
  rewrite splitOn_no_space.
  - cbn [nth_error]. now rewrite trim_newline.
  - clear -Hname. induction name as [| a name IH]; [reflexivity |].
    simpl in Hname. apply andb_true_iff in Hname.
    destruct Hname as [Ha Hn]. simpl.
    rewrite (space_is_space a Ha). now apply IH.
Qed.

(** X13: [getBranchRefPath] returns [null] for every content of [HEAD] that
    does not begin with [ref:] (a detached [HEAD]); for [ref: ], a ref name
    without white space and a line feed it returns the ref name joined to
    the git directory; and for a content that begins with [ref:] and holds
    no space it throws a [TypeError], which the callback of
    [handleGitHeadChange] does not catch. *)
Theorem getBranchRefPath_cases join dirname :
  (forall gitDir headContent,
      Str.startsWith "ref:" headContent = false ->
      getBranchRefPath join gitDir headContent = Returned None)
  /\ (forall gitDir name,
        Str.forallb (fun a => negb (Str.is_space a)) name = true ->
        getBranchRefPath join gitDir
          ("ref: " ++ name ++ String (ascii_of_nat 10) "")
        = Returned (Some (join gitDir name)))
  /\ (forall headContent,
        Str.startsWith "ref:" headContent = true ->
        Str.forallb no_space_char headContent = true ->
        (forall gitDir,
            getBranchRefPath join gitDir headContent
            = TypeError "Cannot read properties of undefined (reading 'trim')")
        /\ forall w gitHeadPath,
             onHeadChangeRead join dirname w gitHeadPath (inr headContent)
             = TypeError
                 "Cannot read properties of undefined (reading 'trim')").
Proof.
  split; [| split].
  - intros gitDir headContent H. unfold getBranchRefPath. now rewrite H.
  - intros gitDir name Hname. now apply getBranchRefPath_ref.
  - intros headContent Hstart Hspace.
    assert (H : forall gitDir,
               getBranchRefPath join gitDir headContent
               = TypeError
                   "Cannot read properties of undefined (reading 'trim')").
    { intros gitDir. unfold getBranchRefPath.
      now rewrite Hstart, splitOn_no_space. }
    split; [exact H |].
    intros w path. unfold onHeadChangeRead. now rewrite H.
Qed.

Lemma getBranchRefPath_cases_witness :
  Str.startsWith "ref:" "ref:refs/heads/main" = true
  /\ Str.forallb no_space_char "ref:refs/heads/main" = true
  /\ getBranchRefPath (fun a b => a ++ "/" ++ b) "/work/.git"
       "ref:refs/heads/main"
     = TypeError "Cannot read properties of undefined (reading 'trim')".
Proof.
  split; [reflexivity |]. split; [reflexivity |].
  apply (proj2 (proj2 (getBranchRefPath_cases (fun a b => a ++ "/" ++ b)
                         (fun p => p)))
           "ref:refs/heads/main" eq_refl eq_refl).
Defined.

(** ** The list of watchers *)

Lemma find_watches_none id watchers :
  find (watches id) watchers = None <-> ~ In id (map fst watchers).
Proof.
  induction watchers as [| [i w] rest IH]; simpl.
  - tauto.
  - unfold watches at 1. simpl.
    destruct (Nat.eqb_spec i id) as [-> | Hne].
    + split; [discriminate | intros H; exfalso; apply H; now left].
    + rewrite IH. tauto.
Qed.

Lemma find_watches_last id watchers w :
  find (watches id) (watchers ++ [(id, w)]) <> None.
Proof.
  intros H. apply find_watches_none in H. apply H.
  rewrite map_app. apply in_or_app. right. now left.
Qed.

Lemma NoDup_snoc (l : list nat) a :
  NoDup l -> ~ In a l -> NoDup (l ++ [a]).
Proof.
  induction l as [| x l IH]; simpl; intros Hnd Hnot.
  - constructor; [tauto | constructor].
  - inversion Hnd as [| y l' Hx Hl]; subst. constructor.
    + intros Hin. apply in_app_or in Hin. simpl in Hin.
      destruct Hin as [Hin | [Hin | []]]; [tauto | subst; tauto].
    + apply IH; tauto.
Qed.

Lemma updateConfig_repo w newConfig :
  repo (updateConfig w newConfig)
  = match updateCommitMessage (repo w) newConfig
            (Some (extractCurrentMessage (repo w) (config w))) with
    | Ok r => r
    | Throw _ => repo w
    end
  /\ config (updateConfig w newConfig) = newConfig.
Proof.
  unfold updateConfig. cbv zeta.
  rewrite safeUpdate_repo, safeUpdate_config.
  destruct (negb (gitHeadWatchInterval (config w)
                  =? gitHeadWatchInterval newConfig)).
  - rewrite setupWatchers_repo, setupWatchers_config, dispose_repo,
      dispose_config. auto.
  - auto.
Qed.

(** X14: [addRepoWatcher] keeps one watcher for each repository object.  For
    an object that has a watcher it changes nothing: no second watcher, no
    pass and no log line.  For a new object it appends one watcher, which
    holds the current configuration and the repository as its first pass
    left it. *)
Theorem addRepoWatcher_once ext id r :
  (NoDup (map fst (repoWatchers ext)) ->
   NoDup (map fst (repoWatchers (addRepoWatcher ext id r))))
  /\ (In id (map fst (repoWatchers ext)) -> addRepoWatcher ext id r = ext)
  /\ (forall r',
        addRepoWatcher (addRepoWatcher ext id r) id r'
        = addRepoWatcher ext id r)
  /\ (~ In id (map fst (repoWatchers ext)) ->
      exists w,
        repoWatchers (addRepoWatcher ext id r)
        = (repoWatchers ext ++ [(id, w)])%list
        /\ config w = currentConfig ext
        /\ repo w
           = match updateCommitMessage r (currentConfig ext) None with
             | Ok r1 => r1
             | Throw _ => r
             end).
Proof.
  unfold addRepoWatcher.
  destruct (find (watches id) (repoWatchers ext)) as [e |] eqn:Hfind.
  - assert (Hin : In id (map fst (repoWatchers ext))).
    { destruct (in_dec Nat.eq_dec id (map fst (repoWatchers ext)));
        [assumption |].
      apply find_watches_none in n. congruence. }
    repeat split; auto.
    + intros r'. now rewrite Hfind.
    + intros Hnot. contradiction.
  - pose proof (proj1 (find_watches_none id (repoWatchers ext)) Hfind)
      as Hnot.
    repeat split.
    + intros Hnd. cbn [repoWatchers]. rewrite map_app. simpl.
      now apply NoDup_snoc.
    + intros Hin. contradiction.
    + intros r'. cbn [repoWatchers].
      destruct (find (watches id) (repoWatchers ext ++ [_])%list) eqn:Hf;
        [reflexivity |].
      now apply find_watches_last in Hf.
    + intros _. eexists. split; [reflexivity |].
      unfold newRepositoryWatcher. cbv zeta.
      rewrite safeUpdate_config, safeUpdate_repo. cbn. auto.
Qed.

Lemma addRepoWatcher_once_witness :
  In 1 (map fst
          (repoWatchers
             (addRepoWatcher (mkExtension defaultConfig [] []) 1
                (repoOn "ML-42-x" "Fix"))))
  /\ addRepoWatcher
       (addRepoWatcher (mkExtension defaultConfig [] []) 1
          (repoOn "ML-42-x" "Fix"))
       1 (repoOn "ML-42-x" "[ML-42] Fix")
     = addRepoWatcher (mkExtension defaultConfig [] []) 1
         (repoOn "ML-42-x" "Fix").
Proof.
  assert (H : In 1 (map fst
                      (repoWatchers
                         (addRepoWatcher (mkExtension defaultConfig [] []) 1
                            (repoOn "ML-42-x" "Fix")))))
    by (left; reflexivity).
  split; [exact H |].
  apply (proj1 (proj2 (addRepoWatcher_once
                         (addRepoWatcher (mkExtension defaultConfig [] []) 1
                            (repoOn "ML-42-x" "Fix"))
                         1 (repoOn "ML-42-x" "[ML-42] Fix")))).
  exact H.
Defined.

Lemma updateWatchers_each newConfig watchers : forall lines,
  map fst (fst (updateWatchers newConfig watchers lines)) = map fst watchers
  /\ map (fun e => repo (snd e))
       (fst (updateWatchers newConfig watchers lines))
     = map (fun e => repo (updateConfig (snd e) newConfig)) watchers
  /\ Forall (fun e => config (snd e) = newConfig)
       (fst (updateWatchers newConfig watchers lines)).
Proof.
  induction watchers as [| [id w] rest IH]; intros lines; simpl.
  - auto.
  - destruct (IH (outputChannel (updateConfig (onChannel lines w) newConfig)))
      as (H1 & H2 & H3).
    destruct (updateWatchers newConfig rest _) as [rest' lines'].
    simpl in *. rewrite H1, H2. repeat split.
    + f_equal.
      destruct (updateConfig_repo (onChannel lines w) newConfig) as [-> _].
      destruct (updateConfig_repo w newConfig) as [-> _]. reflexivity.
    + constructor; [| exact H3]. simpl.
      now destruct (updateConfig_repo (onChannel lines w) newConfig).
Qed.

(** X15: [updateRepositoryWatchers] reaches every watcher: the watchers
    stay the same in number and order, each ends with the new
    configuration, and each repository is left as [updateConfig] of its own
    watcher leaves it, whatever happened to the watchers before it. *)
Theorem updateRepositoryWatchers_each ext newConfig :
  map fst (repoWatchers (updateRepositoryWatchers ext newConfig))
  = map fst (repoWatchers ext)
  /\ map (fun e => repo (snd e))
       (repoWatchers (updateRepositoryWatchers ext newConfig))
     = map (fun e => repo (updateConfig (snd e) newConfig)) (repoWatchers ext)
  /\ Forall (fun e => config (snd e) = newConfig)
       (repoWatchers (updateRepositoryWatchers ext newConfig)).
Proof.
  unfold updateRepositoryWatchers.
  pose proof (updateWatchers_each newConfig (repoWatchers ext) (channel ext))
    as H.
  destruct (updateWatchers newConfig (repoWatchers ext) (channel ext)).
  exact H.
Qed.

(** ** A change of [HEAD] *)

(** X16: when [HEAD] changes to [ref: ], a ref name without white space and
    a line feed, the callback of [handleGitHeadChange] moves the ref
    listener to the file of this ref (the listener on another ref file is
    removed) and then runs a pass: the repository is left as
    [updateCommitMessage] leaves it, or as it was when the pass throws. *)
Theorem onHeadChangeRead_branch join dirname w gitHeadPath name :
  Str.forallb (fun a => negb (Str.is_space a)) name = true ->
  join (dirname gitHeadPath) name <> "" ->
  exists w',
    onHeadChangeRead join dirname w gitHeadPath
      (inr ("ref: " ++ name ++ String (ascii_of_nat 10) ""))
    = Returned w'
    /\ refWatcher w' = Some (join (dirname gitHeadPath) name)
    /\ In (join (dirname gitHeadPath) name) (watchedFiles w')
    /\ (forall old,
          refWatcher w = Some old ->
          old <> join (dirname gitHeadPath) name ->
          ~ In old (watchedFiles w'))
    /\ config w' = config w
    /\ repo w'
       = match updateCommitMessage (repo w) (config w) None with
         | Ok r => r
         | Throw _ => repo w
         end.
Proof.
  intros Hname Hpath. unfold onHeadChangeRead. cbv zeta.
  rewrite getBranchRefPath_ref by exact Hname.
  apply String.eqb_neq in Hpath. rewrite Hpath.
  eexists. split; [reflexivity |].
  set (w1 := log w ("Headcontent is now "
                      ++ "ref: " ++ name ++ String (ascii_of_nat 10) "")).
  destruct (safeUpdate_fields
              (setupRefWatcher w1 (join (dirname gitHeadPath) name)) None)
    as (_ & Hfiles & Href & _).
  destruct (setupRefWatcher_fields w1 (join (dirname gitHeadPath) name))
    as (_ & Href' & Hrepo & Hconfig & Hin).
  rewrite Hfiles, Href, Href', safeUpdate_config, safeUpdate_repo, Hrepo,
    Hconfig.
  repeat split.
  - apply Hin. now left.
  - intros old Hold Hne Hold'. apply Hin in Hold'.
    destruct Hold' as [-> | [_ Hold']]; [now contradiction Hne |].
    now apply (Hold' old).
Qed.

Lemma onHeadChangeRead_branch_witness :
  exists w',
    onHeadChangeRead (fun a b => a ++ "/" ++ b) (fun a => "/work/.git")
      (watcherOf (repoOn "ML-42-x" "Fix") defaultConfig) "/work/.git/HEAD"
      (inr ("ref: " ++ "refs/heads/ML-42-x" ++ String (ascii_of_nat 10) ""))
    = Returned w'
    /\ refWatcher w' = Some "/work/.git/refs/heads/ML-42-x"
    /\ inputBox_value (repo w') = "[ML-42] Fix".
Proof.
  destruct (onHeadChangeRead_branch (fun a b => a ++ "/" ++ b)
              (fun a => "/work/.git")
              (watcherOf (repoOn "ML-42-x" "Fix") defaultConfig)
              "/work/.git/HEAD" "refs/heads/ML-42-x")
    as (w' & Hrun & Href & _ & _ & _ & Hrepo);
    [reflexivity | discriminate |].
  exists w'. split; [exact Hrun |]. split; [exact Href |].
  rewrite Hrepo. reflexivity.
Defined.

(** ** Dollar signs in the message *)

Lemma getSubstitution_skip matched before after caps u v :
  no_dollar u = true ->
  JS.getSubstitution matched before after caps (u ++ v)
  = (u ++ JS.getSubstitution matched before after caps v)%string.
Proof.
  induction u as [| a u IH]; [reflexivity |].
  intros H. simpl in H. apply andb_true_iff in H. destruct H as [Ha Hu].
  change ((String a u ++ v)%string) with (String a (u ++ v)).
  cbn [JS.getSubstitution]. rewrite Ha. now rewrite IH.
Qed.

Lemma forallb_append (q : ascii -> bool) a b :
  Str.forallb q (a ++ b) = Str.forallb q a && Str.forallb q b.
Proof.
  induction a as [| x a IH]; simpl; [reflexivity |].
  now rewrite IH, andb_assoc.
Qed.

Lemma bracket_first_differs x t :
  Str.forallb (fun a => negb (Ascii.eqb "[" a)) t = true ->
  (t =? String "[" x)%string = false.
Proof.
  intros Ht. apply String.eqb_neq. intros ->. discriminate Ht.
Qed.

(** On a matching branch, a trimmed message without an opening bracket is
    put behind the tag after the expansion of its replacement patterns. *)
Lemma pass_default_expands repo m p t :
  JS.match_ (branchOf repo) (commitMessagePrefixPattern defaultConfig) = Some m
  -> JS.group 1 m = Some p ->
  inputBox_value repo = t ->
  Str.forallb (fun a => negb (Ascii.eqb "[" a)) t = true ->
  Str.trim t = t ->
  updateCommitMessage repo defaultConfig None
  = Ok (set_inputBox_value repo
          ("[" ++ p ++ "] "
             ++ JS.getSubstitution "${message}" ("[" ++ p ++ "] ") "" [] t)).
Proof.
  intros Hm Hp Hv Ht Htrim. unfold updateCommitMessage.
  rewrite (default_pattern_branch repo m Hm).
  assert (Hstrip : forall template,
             JS.replace t (outdatedPrefixPattern defaultConfig) template = t).
  { intros template. unfold JS.replace, exec.
    change (outdatedPrefixPattern defaultConfig)
      with (RSeq (RChar "[")
              (RSeq (RGroup 1 ML_group)
                 (RSeq (RChar "]")
                    (RSeq (RChar " ")
                       (RSeq (RGroup 2 (RSeq (RStar true RAny) REmpty))
                          REmpty))))).
    now rewrite execFrom_needs_char by exact Ht. }
  assert (Hext : extractCurrentMessage repo defaultConfig = t).
  { unfold extractCurrentMessage. rewrite Hv. apply Hstrip. }
  rewrite Hext.
  pose proof (getCommitMessage_bracket_format defaultConfig (branchOf repo) t
                eq_refl) as H.
  rewrite Hm, Hp in H. cbn [JS.toString] in H.
  rewrite H by exact (default_pattern_plain _ _ _ Hm Hp). clear H.
  assert (Hfast : JS.test (prefixRegexOf p) t = false).
  { unfold JS.test, exec, prefixRegexOf.
    now rewrite execFrom_bol_needs_char by exact Ht. }
  rewrite Hfast, Hstrip, Htrim. cbn [bind].
  rewrite Hv.
  change ("[" ++ p ++ "] "
            ++ JS.getSubstitution "${message}" ("[" ++ p ++ "] ") "" [] t)%string
    with (String "["
            (p ++ "] "
               ++ JS.getSubstitution "${message}" ("[" ++ p ++ "] ") "" [] t)).
  now rewrite bracket_first_differs by exact Ht.
Qed.

(** X17: the message goes through the replacement patterns of
    [String.prototype.replace].  Under the default configuration, on a branch
    with the prefix [p], a pass on a trimmed message that holds no opening
    bracket and ends in a dollar pattern writes the tag and the message with
    this pattern expanded: [$$] becomes one dollar sign, [$&] becomes the
    placeholder ${message}, the pattern of the text before the match becomes
    the tag, and the pattern of the text after it disappears. *)
Theorem pass_expands_dollar_patterns repo m p u d :
  JS.match_ (branchOf repo) (commitMessagePrefixPattern defaultConfig) = Some m
  -> JS.group 1 m = Some p ->
  no_bracket_dollar u = true ->
  Str.forallb (fun a => negb (Ascii.eqb "[" a)) d = true ->
  Str.trim (u ++ d) = (u ++ d)%string ->
  inputBox_value repo = (u ++ d)%string ->
  updateCommitMessage repo defaultConfig None
  = Ok (set_inputBox_value repo
          ("[" ++ p ++ "] " ++ u
             ++ JS.getSubstitution "${message}" ("[" ++ p ++ "] ") "" [] d))
  /\ JS.getSubstitution "${message}" ("[" ++ p ++ "] ") "" [] "$$" = "$"
  /\ JS.getSubstitution "${message}" ("[" ++ p ++ "] ") "" [] "$&"
     = "${message}"
  /\ JS.getSubstitution "${message}" ("[" ++ p ++ "] ") "" [] "$`"
     = ("[" ++ p ++ "] ")%string
  /\ JS.getSubstitution "${message}" ("[" ++ p ++ "] ") "" [] "$'" = "".
Proof.
  intros Hm Hp Hu Hd Htrim Hv. split.
  - rewrite (pass_default_expands repo m p (u ++ d) Hm Hp Hv).
    + now rewrite getSubstitution_skip by now apply no_bracket_no_dollar.
    + rewrite forallb_append. rewrite (no_bracket_forall u Hu). exact Hd.
    + exact Htrim.
  - repeat split; try reflexivity.
    cbn. now rewrite append_nil_r.
Qed.

Lemma pass_expands_dollar_patterns_witness :
  updateCommitMessage (repoOn "ML-42-x" "costs 5$$") defaultConfig None
  = Ok (set_inputBox_value (repoOn "ML-42-x" "costs 5$$") "[ML-42] costs 5$").
Proof.
  apply (pass_expands_dollar_patterns (repoOn "ML-42-x" "costs 5$$")
           (mkMatch 0 "ML-42-x" "" [Some "ML-42"]) "ML-42" "costs 5" "$$");
    reflexivity.
Defined.
